(** * NutriVision: instance compositing and region merging

    A shallow embedding of [code/inference.py]: the function
    [draw_instance_predictions] (the compositor) and the expression
    [np.any(masks, axis=0).astype(np.uint8)] of [run_inference] (the region
    merger), with the properties of both.

    NumPy arrays are nested lists, indexed with stdpp's lookup.  Pixel
    arithmetic is IEEE binary64, taken from the Standard Library's executable
    specification [SpecFloat], since [img * 0.5 + color_mask * 0.5] turns the
    8-bit image into a float64 array that [astype(np.uint8)] truncates at the
    end.  Scores and thresholds are the rationals that the floats denote; the
    rounding of a threshold to float32, which NumPy 2 applies before it
    compares, is written out on the rationals. *)

From Stdlib Require Import ZArith QArith Qround Qpower Lqa.
From Stdlib Require Import String Ascii Bool Lia Permutation.
From Stdlib Require Import Floats.SpecFloat.
From stdpp Require Import base list strings pretty.

Local Open Scope Z_scope.

(** ** binary64 scalars *)

Module F64.

Definition prec : Z := 53.
Definition emax : Z := 1024.

Definition t : Type := spec_float.

Definition mul : t -> t -> t := SFmul prec emax.
Definition add : t -> t -> t := SFadd prec emax.

(** Conversion of an integer array element to float64. *)
Definition of_Z (z : Z) : t := binary_normalize prec emax z 0 false.

(** The Python float [0.5]. *)
Definition half : t := binary_normalize prec emax 1 (-1) false.

(** The colour scalar [(0, 0, 0)] of [cv2.putText], as a float64 channel. *)
Definition zero : t := S754_zero false.

(** Truncation toward zero, the integer part that a C cast keeps. *)
Definition trunc (f : t) : Z :=
  match f with
  | S754_finite s m e => cond_Zopp s (Z.shiftl (Z.pos m) e)
  | _ => 0
  end.

(** [astype(np.uint8)] on one float64 element: the integer part, in 8 bits. *)
Definition to_u8 (f : t) : Z := trunc f mod 256.

End F64.

(** ** binary32 scalars

    [round x] is the float32 nearest to the real [x], ties to the even
    significand: 24 significant bits, and no exponent below -149 (the
    subnormals).  The exponent has no upper bound here: where NumPy gives an
    infinity, beyond the largest float32, [round x] is at least [2 ^ 128]
    and compares with every finite float32 as the infinity does. *)

Module F32.

Definition pow2 (e : Z) : Q := (2 ^ e)%Q.

(** The exponent [e] with [2 ^ e <= x < 2 ^ (e + 1)], for [0 < x]. *)
Definition ilog2 (x : Q) : Z :=
  let k := Z.log2 (Qnum x) - Z.log2 (Z.pos (Qden x)) in
  if Qle_bool (pow2 k) x then k else k - 1.

(** The nearest integer, ties to even. *)
Definition rint (y : Q) : Z :=
  let f := Qfloor y in
  match (y - inject_Z f ?= 1 # 2)%Q with
  | Lt => f
  | Gt => f + 1
  | Eq => if Z.even f then f else f + 1
  end.

(** The exponent of the unit in the last place of [x]. *)
Definition ulp_exp (x : Q) : Z := Z.max (ilog2 x - 23) (-149).

Definition round_pos (x : Q) : Q :=
  let u := ulp_exp x in (inject_Z (rint (x * pow2 (- u))) * pow2 u)%Q.

Definition round (x : Q) : Q :=
  match (x ?= 0)%Q with
  | Eq => 0%Q
  | Gt => round_pos x
  | Lt => (- round_pos (- x))%Q
  end.

(** The values of float32: an integer of at most 24 bits, scaled by a power
    of two. *)
Definition representable (x : Q) : Prop :=
  exists n u, Z.abs n < 2 ^ 24 /\ -149 <= u /\ (x == inject_Z n * pow2 u)%Q.

(** The same rounding in the Standard Library's specification of IEEE 754,
    from the significand and the exponent of a binary64, and the rational
    that a finite float denotes. *)
Definition of_binary64 (m e : Z) : spec_float := binary_normalize 24 128 m e false.

Definition to_Q (f : spec_float) : Q :=
  match f with
  | S754_finite s m e =>
      (inject_Z (if s then Z.neg m else Z.pos m) * pow2 e)%Q
  | _ => 0%Q
  end.

(** The two roundings give the same value to [m * 2 ^ e]. *)
Definition agree (m e : Z) : bool :=
  Qeq_bool (round (inject_Z m * pow2 e)) (to_Q (of_binary64 m e)).

(** Significands of binary64: a spread of 64 values, then halfway cases
    with an even and with an odd float32 below, and the values next to the
    following power of two. *)
Definition sample_significands : list Z :=
  ((fun k => 2 ^ 52 + 70368744177663 * Z.of_nat k + 1) <$> seq 0 64)
  ++ [2 ^ 52; 2 ^ 52 + 2 ^ 28; 2 ^ 52 + 2 ^ 29 + 2 ^ 28; 2 ^ 52 + 2 ^ 28 + 1;
      2 ^ 52 + 2 ^ 29 + 2 ^ 28 - 1; 2 ^ 53 - 2 ^ 28; 2 ^ 53 - 2 ^ 28 - 1; 2 ^ 53 - 1].

(** Exponents from below the least subnormal to the top of the range. *)
Definition sample_exponents : list Z :=
  [-220; -203; -202; -201; -200; -190; -179; -178; -177; -150; -100; -77;
   -56; -55; -54; -53; -52; -29; -1; 0; 30; 74].

End F32.

(** ** Arrays *)

(** A two-dimensional array: rows of entries. *)
Abbreviation grid A := (list (list A)) (only parsing).

(** The last axis of an [H x W x 3] array. *)
Abbreviation pixel A := (A * A * A)%type (only parsing).

Definition pmap {A B} (f : A -> B) (p : pixel A) : pixel B :=
  let '(a, b, c) := p in (f a, f b, f c).

Definition pzip {A B C} (f : A -> B -> C) (p : pixel A) (q : pixel B) : pixel C :=
  let '(a, b, c) := p in let '(a', b', c') := q in (f a a', f b b', f c c').

Definition at2 {A} (g : grid A) (r c : nat) : option A :=
  g !! r ≫= (fun row => row !! c).

Definition grid_map {A B} (f : A -> B) (g : grid A) : grid B :=
  (fun row : list A => f <$> row) <$> g.

Definition grid_zip_with {A B C} (f : A -> B -> C) (g : grid A) (k : grid B) : grid C :=
  zip_with (zip_with f) g k.

Definition height {A} (g : grid A) : nat := length g.
Definition width {A} (g : grid A) : nat := from_option length 0%nat (head g).

(** An image is a uint8 array (the source, [orig.copy()]) or a float64 array
    (every result of [np.where] in the loop). *)
Inductive image : Type :=
| U8 (a : grid (pixel Z))
| F64 (a : grid (pixel F64.t)).

(** [masks]: a boolean array of shape [(N, H, W)].  The shape is part of the
    array, so that it is known when [N = 0]. *)
Record mask_stack : Type := MaskStack {
  shape_h : nat;
  shape_w : nat;
  planes : list (grid bool)
}.

(** One row of [boxes]: four coordinates. *)
Definition box : Type := (Q * Q * Q * Q)%type.

(** ** Exceptions *)

Inductive exn : Type := IndexError.

Inductive result (A : Type) : Type :=
| Ok (a : A)
| Raise (e : exn).
Arguments Ok {A} a.
Arguments Raise {A} e.

#[global] Instance result_ret : MRet result := fun A a => Ok a.
#[global] Instance result_bind : MBind result := fun A B k m =>
  match m with
  | Ok a => k a
  | Raise e => Raise e
  end.

(** [a[i]] for [i] taken from [range]: an index past the end raises. *)
Definition np_index {A} (a : list A) (i : nat) : result A :=
  match a !! i with
  | Some x => Ok x
  | None => Raise IndexError
  end.

(** [l[i]] on a Python list with an integer index: a negative index counts
    from the end, and an index outside [-len(l) .. len(l) - 1] raises. *)
Definition py_index {A} (l : list A) (i : Z) : result A :=
  let n := Z.of_nat (length l) in
  if 0 <=? i then
    (if i <? n then np_index l (Z.to_nat i) else Raise IndexError)
  else
    (if - n <=? i then np_index l (Z.to_nat (n + i)) else Raise IndexError).

(** [a < b] on a score and the threshold it is compared with.  Both are
    finite floats (the detector keeps the scores above its own cutoff, so
    none is a NaN), compared as the rationals they denote. *)
Definition Qltb (a b : Q) : bool := negb (Qle_bool b a).

(** ** The threshold that line 49 compares

    [scores] is a float32 array (line 99) and [score_thresh] a Python float,
    a binary64.  NumPy 1 compares a float32 scalar with a Python float as
    two float64, that is exactly.  NumPy 2 first converts the Python float
    to the type of the array scalar (NEP 50), rounding it to float32, and
    compares in float32.  [compared_thresh] is the value that enters the
    comparison, from the Python float that the caller passed; the compositor
    below takes the threshold as it is compared. *)
Inductive numpy : Type := NumPy1 | NumPy2.

Definition compared_thresh (v : numpy) (score_thresh : Q) : Q :=
  match v with
  | NumPy1 => score_thresh
  | NumPy2 => F32.round score_thresh
  end.

(** ** What the module takes from outside

    [CLASS_NAMES] is read from the category file when the module is loaded;
    [randint k] is the result of the [k]-th call
    [np.random.randint(0, 255, (3,), dtype=np.uint8)] made by one call of
    [draw_instance_predictions]; [text_pixels h w text org] lists the
    positions [(x, y)] that [cv2.putText] paints when it draws [text] at
    [org] on an [h x w] image with the font, scale and thickness of the call.
    The image is a float64 array whenever [cv2.putText] is reached, and on
    an array that is not 8-bit OpenCV draws without anti-aliasing: a painted
    pixel receives the colour itself. *)
Class Externals : Type := {
  CLASS_NAMES : list string;
  randint : nat -> pixel Z;
  text_pixels : nat -> nat -> string -> Z * Z -> list (Z * Z)
}.

(** ** Region merger: [np.any(masks, axis=0).astype(np.uint8)] *)

Definition mask_at (m : grid bool) (r c : nat) : bool :=
  default false (at2 m r c).

Definition np_any_axis0 (masks : mask_stack) : grid bool :=
  (fun r => (fun c => existsb (fun m => mask_at m r c) (planes masks))
              <$> seq 0 (shape_w masks))
    <$> seq 0 (shape_h masks).

Definition merged_mask (masks : mask_stack) : grid Z :=
  grid_map Z.b2z (np_any_axis0 masks).

(** ** Compositor: [draw_instance_predictions] *)

(** Promotion of the current image to float64, as [img * 0.5] and the third
    argument of [np.where] do. *)
Definition as_f64 (im : image) : grid (pixel F64.t) :=
  match im with
  | U8 a => grid_map (pmap F64.of_Z) a
  | F64 a => a
  end.

(** [np.stack([mask * color[j] for j in range(3)], axis=-1)] *)
Definition color_mask (mask : grid bool) (color : pixel Z) : grid (pixel Z) :=
  grid_map (fun b : bool => pmap (Z.mul (Z.b2z b)) color) mask.

(** [a * 0.5] *)
Definition times_half (a : grid (pixel F64.t)) : grid (pixel F64.t) :=
  grid_map (pmap (fun v => F64.mul v F64.half)) a.

(** [a + b] *)
Definition plus (a b : grid (pixel F64.t)) : grid (pixel F64.t) :=
  grid_zip_with (pzip F64.add) a b.

(** [np.where(mask[:, :, None], x, y)] *)
Definition np_where3 {A} (mask : grid bool) (x y : grid (pixel A)) : grid (pixel A) :=
  grid_zip_with (fun (b : bool) (xy : pixel A * pixel A) => if b then xy.1 else xy.2)
    mask (grid_zip_with pair x y).

(** Lines 52 to 55: the image after the blend of one instance, for a mask
    of the height and width of the image (see [same_size]; NumPy raises or
    broadcasts for another one). *)
Definition blend (im : image) (mask : grid bool) (color : pixel Z) : image :=
  let cur := as_f64 im in
  let cm := grid_map (pmap F64.of_Z) (color_mask mask color) in
  F64 (np_where3 mask (plus (times_half cur) (times_half cm)) cur).

(** [np.where(mask)], stacked by [np.column_stack]: the [(row, column)] of
    every true entry, in row-major order. *)
Definition row_coords (r : nat) (row : list bool) : list (nat * nat) :=
  omap id (imap (fun c (b : bool) => if b then Some (r, c) else None) row).

Definition np_where (mask : grid bool) : list (nat * nat) :=
  mjoin (imap row_coords mask).

Definition sum_rows (coords : list (nat * nat)) : Z :=
  foldr (fun rc acc => Z.of_nat rc.1 + acc) 0 coords.

Definition sum_cols (coords : list (nat * nat)) : Z :=
  foldr (fun rc acc => Z.of_nat rc.2 + acc) 0 coords.

(** [coords.mean(axis=0).astype(int)].  The mean is the float64 quotient of
    an exact integer sum by the number of rows; its integer part is the
    integer quotient as long as [count * (quotient + 1) < 2^53], which every
    image that fits in memory satisfies. *)
Definition centroid (coords : list (nat * nat)) : Z * Z :=
  let n := Z.of_nat (length coords) in
  (sum_rows coords / n, sum_cols coords / n).

(** [cv2.putText(img, label, org, ..., (0, 0, 0), ...)]: paints in place. *)
Definition paint {A} (v : pixel A) (pts : list (Z * Z)) (a : grid (pixel A)) : grid (pixel A) :=
  imap (fun r row =>
    imap (fun c px => if bool_decide ((Z.of_nat c, Z.of_nat r) ∈ pts) then v else px) row) a.

Section Compositor.
Context `{Externals}.

Definition putText (im : image) (text : string) (org : Z * Z) : image :=
  match im with
  | U8 a => U8 (paint (0, 0, 0) (text_pixels (height a) (width a) text org) a)
  | F64 a => F64 (paint (F64.zero, F64.zero, F64.zero)
                        (text_pixels (height a) (width a) text org) a)
  end.

(** Line 64. [str] of an integer is its decimal representation. *)
Definition label_text (l : Z) : result string :=
  if l <? Z.of_nat (length CLASS_NAMES) then py_index CLASS_NAMES l
  else Ok (pretty l).

(** The state of the loop: the array bound to [img], the number of colours
    drawn so far, and the calls of [cv2.putText] made so far. *)
Record canvas : Type := Canvas {
  img : image;
  draws : nat;
  texts : list (string * (Z * Z))
}.

(** The body of the loop, for index [i].  [score_thresh] is the threshold as
    line 49 compares it, [compared_thresh] of the Python float. *)
Definition iteration (masks : mask_stack) (labels : list Z) (scores : list Q)
    (score_thresh : Q) (i : nat) (st : canvas) : result canvas :=
  s ← np_index scores i;
  if Qltb s score_thresh then mret st
  else
    mask ← np_index (planes masks) i;
    let color := randint (draws st) in
    let img1 := blend (img st) mask color in
    let coords := np_where mask in
    if (length coords =? 0)%nat then
      mret (Canvas img1 (S (draws st)) (texts st))
    else
      let '(y_center, x_center) := centroid coords in
      l ← np_index labels i;
      label ← label_text l;
      mret (Canvas (putText img1 label (x_center, y_center))
                   (S (draws st))
                   (texts st ++ [(label, (x_center, y_center))])).

Fixpoint for_each (body : nat -> canvas -> result canvas) (idxs : list nat)
    (st : canvas) : result canvas :=
  match idxs with
  | [] => mret st
  | i :: rest => st' ← body i st; for_each body rest st'
  end.

(** [img.astype(np.uint8)] *)
Definition astype_u8 (im : image) : grid (pixel Z) :=
  match im with
  | U8 a => a
  | F64 a => grid_map (pmap F64.to_u8) a
  end.

(** The loop of [draw_instance_predictions], from the source image. *)
Definition run (img0 : grid (pixel Z)) (boxes : list box) (masks : mask_stack)
    (labels : list Z) (scores : list Q) (score_thresh : Q) : result canvas :=
  for_each (iteration masks labels scores score_thresh)
           (seq 0 (length (planes masks)))
           (Canvas (U8 img0) 0 []).

Definition draw_instance_predictions (img0 : grid (pixel Z)) (boxes : list box)
    (masks : mask_stack) (labels : list Z) (scores : list Q)
    (score_thresh : Q) : result (grid (pixel Z)) :=
  st ← run img0 boxes masks labels scores score_thresh;
  mret (astype_u8 (img st)).

End Compositor.

(** ** Vocabulary of the statements *)

(** An array of [h] rows of [w] entries. *)
Definition has_shape {A} (h w : nat) (g : grid A) : Prop :=
  length g = h /\ Forall (fun row => length row = w) g.

(** The invariant of a detection: every mask has the height and width of
    the source image, and the mask array carries that shape.  Without it
    [np.where] broadcasts or raises; the model covers the calls with it. *)
Definition same_size {A} (img0 : grid A) (masks : mask_stack) : Prop :=
  has_shape (shape_h masks) (shape_w masks) img0 /\
  Forall (has_shape (shape_h masks) (shape_w masks)) (planes masks).

Definition image_shape (h w : nat) (im : image) : Prop :=
  match im with
  | U8 a => has_shape h w a
  | F64 a => has_shape h w a
  end.

(** The values a uint8 array can hold. *)
Definition u8 (z : Z) : Prop := 0 <= z < 256.

Definition u8_pixel (p : pixel Z) : Prop :=
  u8 p.1.1 /\ u8 p.1.2 /\ u8 p.2.

Definition u8_image (a : grid (pixel Z)) : Prop :=
  Forall (Forall u8_pixel) a.

(** Instance [i] passes the test of line 49. *)
Definition accepts (scores : list Q) (score_thresh : Q) (i : nat) : bool :=
  match scores !! i with
  | Some s => negb (Qltb s score_thresh)
  | None => false
  end.

Definition accepted_set (scores : list Q) (score_thresh : Q) : list nat :=
  filter (fun i => accepts scores score_thresh i = true) (seq 0 (length scores)).

(** [0.5 * v + 0.5 * k] in binary64, for a current channel value [v] and a
    colour channel [k]. *)
Definition blend_channel (v : F64.t) (k : Z) : F64.t :=
  F64.add (F64.mul v F64.half) (F64.mul (F64.of_Z k) F64.half).

Definition blend_pixel (p : pixel F64.t) (color : pixel Z) : pixel F64.t :=
  pzip blend_channel p color.

(** The origin handed to [cv2.putText]: [(x_center, y_center)]. *)
Definition anchor (mask : grid bool) : Z * Z :=
  let '(y_center, x_center) := centroid (np_where mask) in (x_center, y_center).

(** A check of [f] on every value of a uint8. *)
Definition u8_all (f : Z -> bool) : bool :=
  forallb f (Z.of_nat <$> seq 0 256).

(** Pixel [(r, c)] lies outside the mask of every accepted instance. *)
Definition outside_accepted_masks (masks : mask_stack) (scores : list Q)
    (score_thresh : Q) (r c : nat) : Prop :=
  forall i m, planes masks !! i = Some m -> accepts scores score_thresh i = true ->
    mask_at m r c = false.

Section Labels.
Context `{Externals}.

(** The calls of [cv2.putText] made by a call that returns. *)
Definition rendered_labels (img0 : grid (pixel Z)) (boxes : list box)
    (masks : mask_stack) (labels : list Z) (scores : list Q)
    (score_thresh : Q) : list (string * (Z * Z)) :=
  match run img0 boxes masks labels scores score_thresh with
  | Ok st => texts st
  | Raise _ => []
  end.

(** Pixel [(r, c)] is painted by none of the [calls] on an image of the size
    of [img0]. *)
Definition outside_labels (img0 : grid (pixel Z))
    (calls : list (string * (Z * Z))) (r c : nat) : Prop :=
  forall label org, (label, org) ∈ calls ->
    (Z.of_nat c, Z.of_nat r) ∉ text_pixels (height img0) (width img0) label org.

(** The frame property without the labels: every pixel outside the accepted
    masks is returned as it was. *)
Definition masks_frame (img0 : grid (pixel Z)) (boxes : list box)
    (masks : mask_stack) (labels : list Z) (scores : list Q)
    (score_thresh : Q) : Prop :=
  forall out, draw_instance_predictions img0 boxes masks labels scores score_thresh = Ok out ->
  forall r c, outside_accepted_masks masks scores score_thresh r c ->
    at2 out r c = at2 img0 r c.

(** The value that the blending rule gives one pixel: from [v], for each
    accepted instance of [idxs] in order, [0.5 * v + 0.5 * colour] where the
    mask of the instance is true at [(r, c)], with the [k]-th colour for the
    [k]-th accepted instance. *)
Fixpoint sequential_blend (masks : mask_stack) (scores : list Q) (score_thresh : Q)
    (r c : nat) (idxs : list nat) (k : nat) (v : pixel F64.t) : pixel F64.t :=
  match idxs with
  | [] => v
  | i :: rest =>
      if accepts scores score_thresh i then
        sequential_blend masks scores score_thresh r c rest (S k)
          (if mask_at (default [] (planes masks !! i)) r c
           then blend_pixel v (randint k) else v)
      else sequential_blend masks scores score_thresh r c rest k v
  end.


(** The blend claim's words on the returned image: every pixel is the 8-bit
    truncation of the value that the blending rule gives it. *)
Definition returns_truncated_blend (img0 : grid (pixel Z)) (boxes : list box)
    (masks : mask_stack) (labels : list Z) (scores : list Q)
    (score_thresh : Q) : Prop :=
  forall out, draw_instance_predictions img0 boxes masks labels scores score_thresh = Ok out ->
  forall r c p0, at2 img0 r c = Some p0 ->
    at2 out r c
    = Some (pmap F64.to_u8
              (sequential_blend masks scores score_thresh r c
                 (seq 0 (length (planes masks))) 0 (pmap F64.of_Z p0))).

End Labels.

(** The default of [score_thresh]. *)
Definition default_score_thresh : Q := 1 # 2.

(** Lines 101 and 111 of [run_inference]: the visualization, drawn on a copy
    of the image with the default threshold, and the mask handed to the
    inpainting, both from the arrays of one detection. *)
Definition run_inference_arrays `{Externals} (orig : grid (pixel Z))
    (boxes : list box) (masks : mask_stack) (labels : list Z)
    (scores : list Q) : result (grid (pixel Z)) * grid Z :=
  (draw_instance_predictions orig boxes masks labels scores default_score_thresh,
   merged_mask masks).

Section Outcome.
Context `{Externals}.

(** What a completed iteration can have done. *)
Inductive outcome (masks : mask_stack) (labels : list Z) (scores : list Q)
    (t : Q) (i : nat) (st : canvas) : canvas -> Prop :=
| skipped s :
    scores !! i = Some s -> (s < t)%Q ->
    outcome masks labels scores t i st st
| blended s m :
    scores !! i = Some s -> (t <= s)%Q -> planes masks !! i = Some m ->
    np_where m = [] ->
    outcome masks labels scores t i st
      (Canvas (blend (img st) m (randint (draws st))) (S (draws st)) (texts st))
| labelled s m l label :
    scores !! i = Some s -> (t <= s)%Q -> planes masks !! i = Some m ->
    np_where m <> [] -> labels !! i = Some l -> label_text l = Ok label ->
    outcome masks labels scores t i st
      (Canvas (putText (blend (img st) m (randint (draws st))) label (anchor m))
              (S (draws st))
              (texts st ++ [(label, anchor m)])).

End Outcome.

(** ** Sample data *)

(** A catalog, a colour stream, and a renderer that paints one pixel per
    character on the row of the origin, from the origin to the right. *)
Definition stroke_world : Externals := {|
  CLASS_NAMES := ["background"; "rice"; "egg"]%string;
  randint := fun k =>
    ((10 + 40 * Z.of_nat k) mod 255, (20 + 30 * Z.of_nat k) mod 255,
     (254 + 7 * Z.of_nat k) mod 255);
  text_pixels := fun _ _ text org =>
    (fun k => (org.1 + Z.of_nat k, org.2)) <$> seq 0 (String.length text)
|}.

(** A white image of 2 rows and 6 columns, and one instance whose mask is
    the pixel of row 1, column 1. *)
Definition white_2x6 : grid (pixel Z) :=
  replicate 2 (replicate 6 (255, 255, 255)).

Definition dot_mask : grid bool :=
  [[false; false; false; false; false; false];
   [false; true; false; false; false; false]].

Definition dot_masks : mask_stack := MaskStack 2 6 [dot_mask].

(** The same catalog and colours, with the pixels that OpenCV 4.11 paints
    for the one call of [cv2.putText] that the samples on [white_2x6] make:
    the text "rice" with its origin at [(1, 1)] on an image of 2 rows and 6
    columns.  Of the text only the stem of the "r", two columns right of the
    origin, falls inside so small an image.  The table holds that call and
    no other. *)
Definition opencv_world : Externals := {|
  CLASS_NAMES := ["background"; "rice"; "egg"]%string;
  randint := fun k =>
    ((10 + 40 * Z.of_nat k) mod 255, (20 + 30 * Z.of_nat k) mod 255,
     (254 + 7 * Z.of_nat k) mod 255);
  text_pixels := fun h w text org =>
    if (h =? 2)%nat && (w =? 6)%nat && String.eqb text "rice"
       && (org.1 =? 1) && (org.2 =? 1)
    then [(3, 0); (3, 1)] else []
|}.

(** The image returned for the one-pixel mask with these pixels: the mask
    pixel blended with the first colour, and the stem in column 3. *)
Definition dot_drawn : grid (pixel Z) :=
  [[(255, 255, 255); (255, 255, 255); (255, 255, 255); (0, 0, 0);
    (255, 255, 255); (255, 255, 255)];
   [(255, 255, 255); (132, 137, 254); (255, 255, 255); (0, 0, 0);
    (255, 255, 255); (255, 255, 255)]].

(** A second instance whose mask holds the pixel of the first one and the
    pixel to its right. *)
Definition pair_mask : grid bool :=
  [[false; false; false; false; false; false];
   [false; true; true; false; false; false]].

Definition dot_pair_masks : mask_stack := MaskStack 2 6 [dot_mask; pair_mask].

(** One instance whose mask is the first four pixels of row 1: its centroid
    is the pixel of row 1, column 1 again, and its last pixel lies under the
    stem. *)
Definition row_mask : grid bool :=
  [[false; false; false; false; false; false];
   [true; true; true; true; false; false]].

Definition row_masks : mask_stack := MaskStack 2 6 [row_mask].

Definition row_drawn : grid (pixel Z) :=
  [[(255, 255, 255); (255, 255, 255); (255, 255, 255); (0, 0, 0);
    (255, 255, 255); (255, 255, 255)];
   [(132, 137, 254); (132, 137, 254); (132, 137, 254); (0, 0, 0);
    (255, 255, 255); (255, 255, 255)]].

(** The Python float [0.7], and the float32 nearest to it, as a score. *)
Definition thresh_0_7 : Q := 6305039478318694 # 9007199254740992.
Definition score_0_7 : Q := 11744051 # 16777216.

(** The two masks of the end-to-end scenario: the left and the right half
    of a 4 x 4 image. *)
Definition left_mask : grid bool := replicate 4 [true; true; false; false].
Definition right_mask : grid bool := replicate 4 [false; false; true; true].
Definition two_masks : mask_stack := MaskStack 4 4 [left_mask; right_mask].
Definition grey_4x4 : grid (pixel Z) := replicate 4 (replicate 4 (200, 100, 1)).

(** A 1 x 3 image. *)
Definition grey_1x3 : grid (pixel Z) := [replicate 3 (200, 100, 1)].

(** ** The rest of the module *)

(** *** Strings

    A Python [str] is a list of code points; the type [ascii] holds those
    below 256, which covers the category file and the paths.  [isspace] is
    the whitespace of [str.strip] and [str.split] among them. *)
Abbreviation str := (list ascii) (only parsing).

Definition isspace (c : ascii) : bool :=
  let n := nat_of_ascii c in
  ((9 <=? n) && (n <=? 13) || (28 <=? n) && (n <=? 32) || (n =? 133) || (n =? 160))%nat.

Fixpoint lstrip (s : str) : str :=
  match s with
  | c :: s' => if isspace c then lstrip s' else s
  | [] => []
  end.

Definition rstrip (s : str) : str := reverse (lstrip (reverse s)).

(** [s.strip()] *)
Definition strip (s : str) : str := rstrip (lstrip s).

(** The word at the head of [s] and what follows it. *)
Fixpoint span_word (s : str) : str * str :=
  match s with
  | c :: s' =>
      if isspace c then ([], s)
      else let '(w, r) := span_word s' in (c :: w, r)
  | [] => ([], [])
  end.

(** [s.split(maxsplit=1)]: whitespace is skipped, one word is cut, the
    whitespace after it is skipped and what is left, if anything, is the
    second item. *)
Definition split_maxsplit1 (s : str) : list str :=
  match lstrip s with
  | [] => []
  | c :: s' =>
      let '(w, r) := span_word (c :: s') in
      match lstrip r with
      | [] => [w]
      | rest => [w; rest]
      end
  end.

(** *** [load_class_names] *)

(** The result of the loader: the list, or the [ValueError] of an unpacking
    that expected two values and got [got]. *)
Inductive loaded (A : Type) : Type :=
| Loaded (a : A)
| ValueError (got : nat).
Arguments Loaded {A} a.
Arguments ValueError {A} got.

(** Line 40: [_, name = line.strip().split(maxsplit=1)] *)
Definition parse_line (line : str) : loaded str :=
  match split_maxsplit1 (strip line) with
  | [_; name] => Loaded name
  | items => ValueError (length items)
  end.

(** The loop of lines 39 to 41 over the lines of the file, with the list
    built so far. *)
Fixpoint load_loop (lines : list str) (class_names : list str) : loaded (list str) :=
  match lines with
  | [] => Loaded class_names
  | line :: rest =>
      match parse_line line with
      | Loaded name => load_loop rest (class_names ++ [name])
      | ValueError got => ValueError got
      end
  end.

(** [load_class_names], on the lines that iterating over the file yields. *)
Definition load_class_names (lines : list str) : loaded (list str) :=
  load_loop lines [].

(** A line with two fields: whitespace, a word, whitespace, a [name] that
    starts and ends with a character that is no whitespace, whitespace. *)
Definition has_fields (line name : str) : Prop :=
  exists w1 word w2 w3,
    line = w1 ++ word ++ w2 ++ name ++ w3 /\
    forallb isspace w1 = true /\
    word <> [] /\ forallb (fun c => negb (isspace c)) word = true /\
    w2 <> [] /\ forallb isspace w2 = true /\
    (exists c, head name = Some c /\ isspace c = false) /\
    (exists c, last name = Some c /\ isspace c = false) /\
    forallb isspace w3 = true.

(** A line of whitespace only (the empty line included). *)
Definition blank (line : str) : Prop := forallb isspace line = true.

(** A line with one field: a single word with whitespace around it. *)
Definition single_word (line : str) : Prop :=
  exists w1 word w3,
    line = w1 ++ word ++ w3 /\
    forallb isspace w1 = true /\
    word <> [] /\ forallb (fun c => negb (isspace c)) word = true /\
    forallb isspace w3 = true.

(** *** Paths of the artifacts ([os.path] of a POSIX system) *)

(** [s.rfind(c)]: the highest index of [c] in [s], or -1. *)
Fixpoint rfind (c : ascii) (s : str) : Z :=
  match s with
  | [] => -1
  | x :: s' =>
      let r := rfind c s' in
      if 0 <=? r then r + 1 else if Ascii.eqb x c then 0 else -1
  end.

(** [os.path.basename(p)] *)
Definition basename (p : str) : str :=
  drop (Z.to_nat (rfind "/" p + 1)) p.

(** [os.path.splitext(p)]: the extension starts at the last dot, unless
    only dots stand between the last separator and it. *)
Definition splitext (p : str) : str * str :=
  let sepIndex := rfind "/" p in
  let dotIndex := rfind "." p in
  if sepIndex <? dotIndex then
    if forallb (fun x => Ascii.eqb x ".")
         (drop (Z.to_nat (sepIndex + 1)) (take (Z.to_nat dotIndex) p))
    then (p, [])
    else (take (Z.to_nat dotIndex) p, drop (Z.to_nat dotIndex) p)
  else (p, []).

(** [os.path.join(a, b)] *)
Definition path_join (a b : str) : str :=
  match b with
  | "/"%char :: _ => b
  | _ =>
      match last a with
      | None => a ++ b
      | Some "/"%char => a ++ b
      | Some _ => a ++ "/"%char :: b
      end
  end.

Definition OUTPUT_DIR : str := list_ascii_of_string "output".

(** Lines 84 to 86, 104 to 106 and 113: the path of the artifact with the
    given suffix. *)
Definition artifact_path (image_path suffix : str) : str :=
  let base_name := basename image_path in
  let '(name, _) := splitext base_name in
  path_join OUTPUT_DIR (name ++ suffix).

Definition resized_input_path (image_path : str) : str :=
  artifact_path image_path (list_ascii_of_string "_resized.jpg").

Definition output_path (image_path : str) : str :=
  artifact_path image_path (list_ascii_of_string "_masked.jpg").

Definition inpainted_output_path (image_path : str) : str :=
  artifact_path image_path (list_ascii_of_string "_inpainted.jpg").

(** *** From the detector's masks to the mask of the inpainting *)

(** [output["masks"].squeeze(1)]: an array of shape [(N, H, W)] of mask
    probabilities. *)
Record soft_stack : Type := SoftStack {
  soft_h : nat;
  soft_w : nat;
  soft_planes : list (grid Q)
}.

(** Line 96: [... > 0.5] *)
Definition binarize (soft : soft_stack) : mask_stack :=
  MaskStack (soft_h soft) (soft_w soft)
    (grid_map (fun p => Qltb (1 # 2) p) <$> soft_planes soft).

(** Line 120: [(binary_mask * 255).astype(np.uint8)], on a uint8 array. *)
Definition mask_image (binary_mask : grid Z) : grid Z :=
  grid_map (fun v => (v * 255) mod 256) binary_mask.

(** The mask image that [run_inference] hands to the pipeline through
    [run_inpainting]. *)
Definition inpainting_mask (soft : soft_stack) : grid Z :=
  mask_image (merged_mask (binarize soft)).

(** *** Vocabulary of the further statements *)

Section Further.
Context `{Externals}.

(** The call of [cv2.putText] that iteration [i] makes, if it makes one. *)
Definition label_call (masks : mask_stack) (labels : list Z) (scores : list Q)
    (score_thresh : Q) (i : nat) : option (string * (Z * Z)) :=
  if accepts scores score_thresh i then
    match planes masks !! i with
    | Some m =>
        match np_where m with
        | [] => None
        | _ :: _ =>
            match labels !! i with
            | Some l =>
                match label_text l with
                | Ok label => Some (label, anchor m)
                | Raise _ => None
                end
            | None => None
            end
        end
    | None => None
    end
  else None.

(** Iteration [i] returns: the score is there and, when the instance is
    accepted with a non-empty mask, so is a label id that the catalog lookup
    accepts. *)
Definition iteration_returns (masks : mask_stack) (labels : list Z)
    (scores : list Q) (score_thresh : Q) (i : nat) : Prop :=
  exists s, scores !! i = Some s /\
    ((score_thresh <= s)%Q ->
     forall m, planes masks !! i = Some m ->
       (exists r c, mask_at m r c = true) ->
       exists l, labels !! i = Some l /\ - Z.of_nat (length CLASS_NAMES) <= l).

End Further.

(** *** Further sample data *)

Definition newline : ascii := ascii_of_nat 10.
Definition tab : ascii := ascii_of_nat 9.

(** Three lines of a category file, as iterating over the file yields them;
    the ids on the lines are not the positions. *)
Definition sample_lines : list str :=
  [list_ascii_of_string "0 background" ++ [newline];
   list_ascii_of_string "7   fried rice  " ++ [newline];
   tab :: list_ascii_of_string "2" ++ tab :: list_ascii_of_string "egg"].

Definition sample_names : list str :=
  list_ascii_of_string <$> ["background"; "fried rice"; "egg"]%string.

(** The externals of [stroke_world] with the catalog of [sample_lines]. *)
Definition loaded_world : Externals := {|
  CLASS_NAMES := string_of_list_ascii <$> sample_names;
  randint := @randint stroke_world;
  text_pixels := @text_pixels stroke_world
|}.

(** The visualization of the end-to-end scenario, with the strokes of
    [stroke_world]. *)
Definition scenario_out : grid (pixel Z) :=
  [[(105, 60, 127); (105, 60, 127); (200, 100, 1); (200, 100, 1)];
   [(0, 0, 0); (0, 0, 0); (0, 0, 0); (0, 0, 0)];
   [(105, 60, 127); (105, 60, 127); (200, 100, 1); (200, 100, 1)];
   [(105, 60, 127); (105, 60, 127); (200, 100, 1); (200, 100, 1)]].

(** * Properties *)

(** ** Array lookups *)

Lemma at2_grid_map {A B} (f : A -> B) (g : grid A) r c :
  at2 (grid_map f g) r c = f <$> at2 g r c.
Proof.
  unfold at2, grid_map. rewrite list_lookup_fmap.
  destruct (g !! r) as [row|]; simpl; [apply list_lookup_fmap | done].
Qed.

Lemma at2_grid_zip_with {A B C} (f : A -> B -> C) (g : grid A) (k : grid B) r c :
  at2 (grid_zip_with f g k) r c =
  at2 g r c ≫= fun x => at2 k r c ≫= fun y => Some (f x y).
Proof.
  unfold at2, grid_zip_with. rewrite lookup_zip_with.
  destruct (g !! r) as [row|]; simpl; [|done].
  destruct (k !! r) as [row'|]; simpl.
  - apply lookup_zip_with.
  - by destruct (row !! c).
Qed.

Lemma at2_paint {A} (v : pixel A) pts (a : grid (pixel A)) r c :
  at2 (paint v pts a) r c =
  (fun px => if bool_decide ((Z.of_nat c, Z.of_nat r) ∈ pts) then v else px)
    <$> at2 a r c.
Proof.
  unfold at2, paint. rewrite list_lookup_imap.
  destruct (a !! r) as [row|]; simpl; [apply list_lookup_imap | done].
Qed.

Lemma has_shape_at2 {A} h w (g : grid A) r c :
  has_shape h w g -> (is_Some (at2 g r c) <-> (r < h)%nat /\ (c < w)%nat).
Proof.
  intros [Hlen Hrows]. unfold at2. split.
  - intros [x Hx]. destruct (g !! r) as [row|] eqn:Hr; simpl in Hx; [|done].
    split.
    + rewrite <- Hlen. by eapply lookup_lt_Some.
    + rewrite Forall_lookup in Hrows. rewrite <- (Hrows _ _ Hr).
      by eapply lookup_lt_Some.
  - intros [Hr Hc]. rewrite <- Hlen in Hr.
    destruct (lookup_lt_is_Some_2 _ _ Hr) as [row Hrow]. rewrite Hrow. simpl.
    apply lookup_lt_is_Some_2. rewrite Forall_lookup in Hrows.
    by rewrite (Hrows _ _ Hrow).
Qed.

Lemma has_shape_grid_map {A B} (f : A -> B) h w (g : grid A) :
  has_shape h w g -> has_shape h w (grid_map f g).
Proof.
  intros [Hlen Hrows]. split.
  - unfold grid_map. by rewrite length_fmap.
  - unfold grid_map. rewrite Forall_fmap. eapply Forall_impl; [exact Hrows|].
    intros row Hrow. simpl. by rewrite length_fmap.
Qed.

Lemma has_shape_grid_zip_with {A B C} (f : A -> B -> C) h w (g : grid A) (k : grid B) :
  has_shape h w g -> has_shape h w k -> has_shape h w (grid_zip_with f g k).
Proof.
  intros [Hlen Hrows] [Hlen' Hrows']. split.
  - unfold grid_zip_with. rewrite length_zip_with. lia.
  - apply Forall_lookup. intros i row Hi. unfold grid_zip_with in Hi.
    rewrite lookup_zip_with in Hi.
    destruct (g !! i) as [x|] eqn:Hx; simpl in Hi; [|done].
    destruct (k !! i) as [y|] eqn:Hy; simpl in Hi; [|done].
    inversion Hi; subst row. rewrite length_zip_with.
    rewrite Forall_lookup in Hrows. rewrite Forall_lookup in Hrows'.
    rewrite (Hrows _ _ Hx), (Hrows' _ _ Hy). lia.
Qed.

Lemma has_shape_paint {A} (v : pixel A) pts h w (a : grid (pixel A)) :
  has_shape h w a -> has_shape h w (paint v pts a).
Proof.
  intros [Hlen Hrows]. split.
  - unfold paint. by rewrite length_imap.
  - apply Forall_lookup. intros i row Hi. unfold paint in Hi.
    rewrite list_lookup_imap in Hi.
    destruct (a !! i) as [x|] eqn:Hx; simpl in Hi; [|done].
    inversion Hi; subst row. rewrite length_imap.
    rewrite Forall_lookup in Hrows. by apply (Hrows _ _ Hx).
Qed.

Lemma has_shape_width {A B} h w (g : grid A) (k : grid B) :
  has_shape h w g -> has_shape h w k -> height g = height k /\ width g = width k.
Proof.
  intros [Hlen Hrows] [Hlen' Hrows']. unfold height, width. split; [lia|].
  destruct g as [|x g], k as [|y k]; simpl in *; try lia.
  inversion Hrows; inversion Hrows'; lia.
Qed.

Lemma grid_ext {A} h w (a b : grid A) :
  has_shape h w a -> has_shape h w b ->
  (forall r c, (r < h)%nat -> (c < w)%nat -> at2 a r c = at2 b r c) ->
  a = b.
Proof.
  intros [Ha Hra] [Hb Hrb] Hat. apply list_eq. intros r.
  destruct (decide (r < h)%nat) as [Hr|Hr].
  - destruct (lookup_lt_is_Some_2 a r) as [ra Hra']; [lia|].
    destruct (lookup_lt_is_Some_2 b r) as [rb Hrb']; [lia|].
    rewrite Hra', Hrb'. f_equal.
    rewrite Forall_lookup in Hra. rewrite Forall_lookup in Hrb.
    specialize (Hra _ _ Hra'). specialize (Hrb _ _ Hrb').
    apply list_eq. intros c. destruct (decide (c < w)%nat) as [Hc|Hc].
    + specialize (Hat r c Hr Hc). unfold at2 in Hat.
      by rewrite Hra', Hrb' in Hat.
    + rewrite !lookup_ge_None_2; [done | lia | lia].
  - rewrite !lookup_ge_None_2; [done | lia | lia].
Qed.

(** ** binary64 facts used by the compositor *)

Lemma u8_all_spec f : u8_all f = true -> forall z, u8 z -> f z = true.
Proof.
  unfold u8_all, u8. intros Hall z Hz.
  rewrite forallb_forall in Hall. apply Hall.
  apply list_elem_of_In. apply list_elem_of_fmap. exists (Z.to_nat z). split; [lia|].
  apply elem_of_seq. lia.
Qed.

(** A uint8 value survives the conversion to float64 and back. *)
Lemma to_u8_of_Z z : u8 z -> F64.to_u8 (F64.of_Z z) = z.
Proof.
  intros Hz. apply Z.eqb_eq.
  apply (u8_all_spec (fun z => F64.to_u8 (F64.of_Z z) =? z)); [|exact Hz].
  vm_compute. reflexivity.
Qed.

Lemma to_u8_zero : F64.to_u8 F64.zero = 0.
Proof. reflexivity. Qed.

(** One blend of two uint8 values is exact, and its integer part is the
    integer mean rounded down. *)
Lemma to_u8_blend_channel p k :
  u8 p -> u8 k -> F64.to_u8 (blend_channel (F64.of_Z p) k) = (p + k) / 2.
Proof.
  intros Hp Hk. apply Z.eqb_eq.
  apply (u8_all_spec
    (fun k => u8_all (fun p => F64.to_u8 (blend_channel (F64.of_Z p) k) =? (p + k) / 2)))
    in Hk.
  - exact (u8_all_spec _ Hk p Hp).
  - vm_compute. reflexivity.
Qed.

Lemma pmap_pmap {A B C} (f : A -> B) (g : B -> C) (p : pixel A) :
  pmap g (pmap f p) = pmap (fun x => g (f x)) p.
Proof. by destruct p as [[a b] c]. Qed.

Lemma pmap_id_on {A} (f : A -> A) (p : pixel A) :
  f p.1.1 = p.1.1 -> f p.1.2 = p.1.2 -> f p.2 = p.2 -> pmap f p = p.
Proof. destruct p as [[a b] c]; simpl. by intros -> -> ->. Qed.

Lemma u8_pixel_roundtrip (p : pixel Z) :
  u8_pixel p -> pmap F64.to_u8 (pmap F64.of_Z p) = p.
Proof.
  intros (Ha & Hb & Hc). rewrite pmap_pmap.
  apply pmap_id_on; by apply to_u8_of_Z.
Qed.

Lemma u8_image_at2 (a : grid (pixel Z)) r c p :
  u8_image a -> at2 a r c = Some p -> u8_pixel p.
Proof.
  unfold u8_image, at2. intros Ha Hp.
  destruct (a !! r) as [row|] eqn:Hr; simpl in Hp; [|done].
  rewrite Forall_lookup in Ha. specialize (Ha _ _ Hr).
  rewrite Forall_lookup in Ha. by apply (Ha _ _ Hp).
Qed.

(** ** The blend, pixel by pixel *)

Lemma blend_at im mask color r c :
  at2 (as_f64 (blend im mask color)) r c =
  at2 mask r c ≫= fun b : bool =>
  at2 (as_f64 im) r c ≫= fun p =>
  Some (if b then blend_pixel p color else p).
Proof.
  unfold blend, np_where3, plus, times_half, color_mask. simpl.
  rewrite !at2_grid_zip_with, !at2_grid_map.
  destruct (at2 mask r c) as [b|]; simpl; [|done].
  destruct (at2 (as_f64 im) r c) as [[[v1 v2] v3]|]; simpl; [|done].
  destruct b; [|done].
  destruct color as [[k1 k2] k3]. simpl.
  unfold blend_pixel, blend_channel. simpl.
  by rewrite !Z.mul_1_l.
Qed.

Lemma blend_shape h w im mask color :
  image_shape h w im -> has_shape h w mask -> image_shape h w (blend im mask color).
Proof.
  intros Him Hm. unfold blend, np_where3, plus, times_half, color_mask. simpl.
  assert (has_shape h w (as_f64 im)) as Hcur.
  { destruct im; simpl in *; [by apply has_shape_grid_map | done]. }
  repeat (first [apply has_shape_grid_zip_with | apply has_shape_grid_map]);
    assumption.
Qed.

(** ** The score test *)

Lemma Qltb_lt a b : Qltb a b = true <-> (a < b)%Q.
Proof.
  unfold Qltb. rewrite negb_true_iff. split.
  - intros Hle. apply Qnot_le_lt. intros Hba.
    apply Qle_bool_iff in Hba. congruence.
  - intros Hlt. destruct (Qle_bool b a) eqn:Hle; [|done].
    apply Qle_bool_iff in Hle. exfalso. by apply (Qlt_not_le a b).
Qed.

Lemma Qltb_ge a b : Qltb a b = false <-> (b <= a)%Q.
Proof.
  unfold Qltb. rewrite negb_false_iff. apply Qle_bool_iff.
Qed.

Lemma accepts_spec scores t i :
  accepts scores t i = true <-> exists s, scores !! i = Some s /\ (t <= s)%Q.
Proof.
  unfold accepts. split.
  - destruct (scores !! i) as [s|]; [|done]. rewrite negb_true_iff.
    intros Hs. exists s. split; [done|]. by apply Qltb_ge.
  - intros (s & -> & Hs). rewrite negb_true_iff. by apply Qltb_ge.
Qed.

(** ** True pixels of a mask and their centroid *)

Lemma elem_of_row_coords r row rc :
  rc ∈ row_coords r row <-> exists c, rc = (r, c) /\ row !! c = Some true.
Proof.
  unfold row_coords. rewrite list_elem_of_omap. split.
  - intros (o & Ho & Hrc). apply elem_of_lookup_imap in Ho as (c & b & -> & Hb).
    destruct b; simpl in Hrc; [|done]. inversion Hrc. by exists c.
  - intros (c & -> & Hc). exists (Some (r, c)). split; [|done].
    apply elem_of_lookup_imap. by exists c, true.
Qed.

Lemma elem_of_np_where mask r c :
  (r, c) ∈ np_where mask <-> at2 mask r c = Some true.
Proof.
  unfold np_where, at2. rewrite list_elem_of_join. split.
  - intros (l & Hrc & Hl). apply elem_of_lookup_imap in Hl as (r' & row & -> & Hrow).
    apply elem_of_row_coords in Hrc as (c' & Heq & Hc). inversion Heq; subst.
    by rewrite Hrow.
  - intros Hrc. destruct (mask !! r) as [row|] eqn:Hrow; simpl in Hrc; [|done].
    exists (row_coords r row). split.
    + apply elem_of_row_coords. by exists c.
    + apply elem_of_lookup_imap. by exists r, row.
Qed.

Lemma np_where_nil mask :
  np_where mask = [] <-> forall r c, mask_at mask r c = false.
Proof.
  split.
  - intros Hnil r c. unfold mask_at.
    destruct (at2 mask r c) as [[|]|] eqn:Hrc; try done.
    apply elem_of_np_where in Hrc. rewrite Hnil in Hrc. by apply elem_of_nil in Hrc.
  - intros Hall. destruct (np_where mask) as [|[r c] l] eqn:Hw; [done|].
    assert ((r, c) ∈ np_where mask) as Hin by (rewrite Hw; apply list_elem_of_here).
    apply elem_of_np_where in Hin. specialize (Hall r c).
    unfold mask_at in Hall. by rewrite Hin in Hall.
Qed.

Lemma mask_at_true mask r c :
  mask_at mask r c = true <-> (r, c) ∈ np_where mask.
Proof.
  rewrite elem_of_np_where. unfold mask_at.
  destruct (at2 mask r c) as [[|]|]; simpl; split; congruence.
Qed.

Lemma sum_rows_bounds coords lo hi :
  (forall rc, rc ∈ coords -> lo <= Z.of_nat rc.1 <= hi) ->
  Z.of_nat (length coords) * lo <= sum_rows coords <= Z.of_nat (length coords) * hi.
Proof.
  induction coords as [|rc coords IH]; intros Hb; simpl; [lia|].
  assert (lo <= Z.of_nat rc.1 <= hi) by (apply Hb; apply list_elem_of_here).
  assert (Z.of_nat (length coords) * lo <= sum_rows coords
          <= Z.of_nat (length coords) * hi).
  { apply IH. intros rc' Hrc'. apply Hb. by apply list_elem_of_further. }
  lia.
Qed.

Lemma sum_cols_bounds coords lo hi :
  (forall rc, rc ∈ coords -> lo <= Z.of_nat rc.2 <= hi) ->
  Z.of_nat (length coords) * lo <= sum_cols coords <= Z.of_nat (length coords) * hi.
Proof.
  induction coords as [|rc coords IH]; intros Hb; simpl; [lia|].
  assert (lo <= Z.of_nat rc.2 <= hi) by (apply Hb; apply list_elem_of_here).
  assert (Z.of_nat (length coords) * lo <= sum_cols coords
          <= Z.of_nat (length coords) * hi).
  { apply IH. intros rc' Hrc'. apply Hb. by apply list_elem_of_further. }
  lia.
Qed.

Lemma quotient_between n s lo hi :
  0 < n -> n * lo <= s <= n * hi -> lo <= s / n <= hi.
Proof.
  intros Hn [Hlo Hhi]. split.
  - apply Z.div_le_lower_bound; lia.
  - apply Z.div_le_upper_bound; lia.
Qed.

Lemma quotient_floor n s : 0 < n -> n * (s / n) <= s < n * (s / n + 1).
Proof.
  intros Hn. pose proof (Z.mul_div_le s n Hn).
  pose proof (Z.mul_succ_div_gt s n Hn). lia.
Qed.

(** ** One iteration of the loop *)

Lemma np_index_Some {A} (a : list A) i x : a !! i = Some x -> np_index a i = Ok x.
Proof. unfold np_index. by intros ->. Qed.

Lemma np_index_None {A} (a : list A) i : a !! i = None -> np_index a i = Raise IndexError.
Proof. unfold np_index. by intros ->. Qed.

Lemma bind_Ok {A B} (a : A) (k : A -> result B) : (Ok a ≫= k) = k a.
Proof. reflexivity. Qed.

Lemma bind_Raise {A B} (e : exn) (k : A -> result B) : (Raise e ≫= k) = Raise e.
Proof. reflexivity. Qed.

Lemma mret_Ok {A} (a : A) : mret a = Ok a.
Proof. reflexivity. Qed.

Section Iteration.
Context `{Externals}.

Lemma iteration_rejected masks labels scores t i s st :
  scores !! i = Some s -> (s < t)%Q ->
  iteration masks labels scores t i st = Ok st.
Proof.
  intros Hs Hlt. unfold iteration, np_index. rewrite Hs.
  apply Qltb_lt in Hlt. cbn. by rewrite Hlt.
Qed.

Lemma iteration_accepted_empty masks labels scores t i s m st :
  scores !! i = Some s -> (t <= s)%Q -> planes masks !! i = Some m ->
  np_where m = [] ->
  iteration masks labels scores t i st =
  Ok (Canvas (blend (img st) m (randint (draws st))) (S (draws st)) (texts st)).
Proof.
  intros Hs Hge Hm Hnil. unfold iteration, np_index. rewrite Hs.
  apply Qltb_ge in Hge. cbn. rewrite Hge, Hm. cbn. by rewrite Hnil.
Qed.

Lemma iteration_accepted_label masks labels scores t i s m st :
  scores !! i = Some s -> (t <= s)%Q -> planes masks !! i = Some m ->
  np_where m <> [] ->
  iteration masks labels scores t i st =
  l ← np_index labels i;
  label ← label_text l;
  mret (Canvas (putText (blend (img st) m (randint (draws st))) label (anchor m))
               (S (draws st))
               (texts st ++ [(label, anchor m)])).
Proof.
  intros Hs Hge Hm Hne. unfold iteration.
  rewrite (np_index_Some _ _ _ Hs), (np_index_Some _ _ _ Hm).
  apply Qltb_ge in Hge. cbn. rewrite Hge.
  unfold anchor. destruct (np_where m) as [|rc coords] eqn:Hw; [done|].
  cbn [length Nat.eqb]. by destruct (centroid (rc :: coords)).
Qed.

Lemma iteration_Ok masks labels scores t i st st' :
  iteration masks labels scores t i st = Ok st' ->
  outcome masks labels scores t i st st'.
Proof.
  intros Hit.
  destruct (scores !! i) as [s|] eqn:Hs;
    [|unfold iteration, np_index in Hit; by rewrite Hs in Hit].
  destruct (Qltb s t) eqn:Hst.
  - apply Qltb_lt in Hst. rewrite (iteration_rejected _ _ _ _ _ _ _ Hs Hst) in Hit.
    inversion Hit; subst. by eapply skipped.
  - apply Qltb_ge in Hst.
    destruct (planes masks !! i) as [m|] eqn:Hm.
    2:{ unfold iteration, np_index in Hit. rewrite Hs in Hit. cbn in Hit.
        apply Qltb_ge in Hst. rewrite Hst, Hm in Hit. done. }
    destruct (np_where m) as [|rc coords] eqn:Hw.
    + rewrite (iteration_accepted_empty _ _ _ _ _ _ _ _ Hs Hst Hm Hw) in Hit.
      inversion Hit; subst. by eapply blended.
    + assert (np_where m <> []) as Hne by (by rewrite Hw).
      rewrite (iteration_accepted_label _ _ _ _ _ _ _ _ Hs Hst Hm Hne) in Hit.
      unfold np_index in Hit.
      destruct (labels !! i) as [l|] eqn:Hl; [|done]. cbn in Hit.
      destruct (label_text l) as [label|] eqn:Hlabel; [|done]. cbn in Hit.
      inversion Hit; subst. by eapply labelled.
Qed.

Lemma for_each_app body idxs idxs' st :
  for_each body (idxs ++ idxs') st =
  st' ← for_each body idxs st; for_each body idxs' st'.
Proof.
  revert st. induction idxs as [|i idxs IH]; intros st; [done|].
  cbn. destruct (body i st) as [st1|e]; cbn; [apply IH | done].
Qed.

Lemma for_each_cons_Ok body i idxs st stf :
  for_each body (i :: idxs) st = Ok stf ->
  exists st', body i st = Ok st' /\ for_each body idxs st' = Ok stf.
Proof.
  cbn. destruct (body i st) as [st'|e]; cbn; [|done]. intros Hf. by exists st'.
Qed.

Lemma outcome_texts masks labels scores t i st st' :
  outcome masks labels scores t i st st' -> texts st `prefix_of` texts st'.
Proof.
  intros [| |]; cbn; [done | done | by apply prefix_app_r].
Qed.

Lemma for_each_texts masks labels scores t idxs st stf :
  for_each (iteration masks labels scores t) idxs st = Ok stf ->
  texts st `prefix_of` texts stf.
Proof.
  revert st. induction idxs as [|i idxs IH]; intros st Hf.
  - cbn in Hf. by inversion Hf.
  - apply for_each_cons_Ok in Hf as (st' & Hit & Hf).
    etrans; [|by apply IH]. eapply outcome_texts. by apply iteration_Ok.
Qed.

End Iteration.

(** ** Pixels that an iteration leaves alone *)

Lemma astype_via_f64 im r c :
  (forall p, at2 (astype_u8 im) r c = Some p -> u8_pixel p) ->
  pmap F64.to_u8 <$> at2 (as_f64 im) r c = at2 (astype_u8 im) r c.
Proof.
  destruct im as [a|a]; simpl; intros Hu8.
  - rewrite at2_grid_map. destruct (at2 a r c) as [p|]; [|done]. simpl.
    f_equal. apply u8_pixel_roundtrip. by apply Hu8.
  - by rewrite at2_grid_map.
Qed.

Lemma astype_blend im m color r c :
  at2 (astype_u8 (blend im m color)) r c =
  pmap F64.to_u8 <$> at2 (as_f64 (blend im m color)) r c.
Proof. unfold blend. simpl. by rewrite at2_grid_map. Qed.

Lemma blend_frame im m color r c :
  (forall p, at2 (astype_u8 im) r c = Some p -> u8_pixel p) ->
  at2 m r c = Some false ->
  at2 (astype_u8 (blend im m color)) r c = at2 (astype_u8 im) r c.
Proof.
  intros Hu8 Hm. rewrite astype_blend, blend_at, Hm. simpl.
  rewrite <- (astype_via_f64 im r c Hu8).
  by destruct (at2 (as_f64 im) r c).
Qed.

Lemma blend_outside im m color r c :
  at2 m r c = None -> at2 (astype_u8 (blend im m color)) r c = None.
Proof. intros Hm. by rewrite astype_blend, blend_at, Hm. Qed.

Section Frame.
Context `{Externals}.

Lemma putText_shape h w im label org :
  image_shape h w im -> image_shape h w (putText im label org).
Proof.
  destruct im as [a|a]; simpl; apply has_shape_paint.
Qed.

Lemma putText_frame h w (img0 : grid (pixel Z)) im label org r c :
  has_shape h w img0 -> image_shape h w im ->
  (Z.of_nat c, Z.of_nat r) ∉ text_pixels (height img0) (width img0) label org ->
  at2 (astype_u8 (putText im label org)) r c = at2 (astype_u8 im) r c.
Proof.
  intros H0 Him Hout. destruct im as [a|a]; simpl in *.
  - destruct (has_shape_width _ _ _ _ Him H0) as [-> ->].
    rewrite at2_paint. rewrite bool_decide_eq_false_2 by done.
    by destruct (at2 a r c).
  - destruct (has_shape_width _ _ _ _ Him H0) as [-> ->].
    rewrite !at2_grid_map, at2_paint. rewrite bool_decide_eq_false_2 by done.
    by destruct (at2 a r c).
Qed.

(** A painted pixel is black in the returned image. *)
Lemma putText_painted h w (img0 : grid (pixel Z)) im label org r c :
  has_shape h w img0 -> image_shape h w im -> (r < h)%nat -> (c < w)%nat ->
  (Z.of_nat c, Z.of_nat r) ∈ text_pixels (height img0) (width img0) label org ->
  at2 (astype_u8 (putText im label org)) r c = Some (0, 0, 0).
Proof.
  intros H0 Him Hr Hc Hin. destruct im as [a|a]; simpl in *.
  - destruct (has_shape_width _ _ _ _ Him H0) as [-> ->].
    rewrite at2_paint. rewrite bool_decide_eq_true_2 by done.
    destruct (proj2 (has_shape_at2 _ _ a r c Him) (conj Hr Hc)) as [p ->]. done.
  - destruct (has_shape_width _ _ _ _ Him H0) as [-> ->].
    rewrite !at2_grid_map, at2_paint. rewrite bool_decide_eq_true_2 by done.
    destruct (proj2 (has_shape_at2 _ _ a r c Him) (conj Hr Hc)) as [p ->]. done.
Qed.

Lemma outcome_shape (img0 : grid (pixel Z)) masks labels scores t i st st' :
  same_size img0 masks ->
  outcome masks labels scores t i st st' ->
  image_shape (shape_h masks) (shape_w masks) (img st) ->
  image_shape (shape_h masks) (shape_w masks) (img st').
Proof.
  intros [_ Hms] Hout Hst. rewrite Forall_lookup in Hms.
  destruct Hout as [| s m _ _ Hm _ | s m l label _ _ Hm _ _ _]; cbn [img].
  - done.
  - apply blend_shape; [done | by eapply Hms].
  - apply putText_shape, blend_shape; [done | by eapply Hms].
Qed.

Lemma outcome_frame (img0 : grid (pixel Z)) masks labels scores t i st st' r c :
  same_size img0 masks -> u8_image img0 ->
  outcome masks labels scores t i st st' ->
  image_shape (shape_h masks) (shape_w masks) (img st) ->
  at2 (astype_u8 (img st)) r c = at2 img0 r c ->
  (forall m, planes masks !! i = Some m -> accepts scores t i = true ->
             mask_at m r c = false) ->
  (forall label org, (label, org) ∈ texts st' ->
     (Z.of_nat c, Z.of_nat r) ∉ text_pixels (height img0) (width img0) label org) ->
  at2 (astype_u8 (img st')) r c = at2 img0 r c.
Proof.
  intros Hsize Hu8 Hout Hshape Hpx Hmask Htext.
  assert (forall p, at2 (astype_u8 (img st)) r c = Some p -> u8_pixel p) as Hp.
  { intros p Hp. rewrite Hpx in Hp. by eapply u8_image_at2. }
  assert (forall s m, scores !! i = Some s -> (t <= s)%Q ->
            planes masks !! i = Some m ->
            at2 (astype_u8 (blend (img st) m (randint (draws st)))) r c
            = at2 img0 r c) as Hblend.
  { intros s m Hs Hge Hm.
    assert (mask_at m r c = false) as Hfalse.
    { apply Hmask; [done|]. apply accepts_spec. by exists s. }
    destruct Hsize as [H0 Hms]. rewrite Forall_lookup in Hms.
    specialize (Hms _ _ Hm). unfold mask_at in Hfalse.
    destruct (at2 m r c) as [b|] eqn:Hb.
    - simpl in Hfalse. subst b. by rewrite blend_frame.
    - rewrite blend_outside by done. symmetry.
      apply eq_None_not_Some. intros Hsome.
      apply (has_shape_at2 _ _ _ r c H0) in Hsome.
      apply (has_shape_at2 _ _ _ r c Hms) in Hsome.
      rewrite Hb in Hsome. by destruct Hsome. }
  destruct Hout as [| s m Hs Hge Hm _ | s m l label Hs Hge Hm _ _ _];
    cbn [img texts] in *.
  - done.
  - by eapply Hblend.
  - destruct Hsize as [H0 Hms]. rewrite Forall_lookup in Hms.
    rewrite (putText_frame (shape_h masks) (shape_w masks) img0).
    + by eapply Hblend.
    + done.
    + apply blend_shape; [done | by eapply Hms].
    + apply Htext. apply elem_of_app. right. apply list_elem_of_here.
Qed.

Lemma for_each_frame (img0 : grid (pixel Z)) masks labels scores t r c idxs st stf :
  same_size img0 masks -> u8_image img0 ->
  for_each (iteration masks labels scores t) idxs st = Ok stf ->
  image_shape (shape_h masks) (shape_w masks) (img st) ->
  at2 (astype_u8 (img st)) r c = at2 img0 r c ->
  (forall i m, planes masks !! i = Some m -> accepts scores t i = true ->
               mask_at m r c = false) ->
  (forall label org, (label, org) ∈ texts stf ->
     (Z.of_nat c, Z.of_nat r) ∉ text_pixels (height img0) (width img0) label org) ->
  at2 (astype_u8 (img stf)) r c = at2 img0 r c.
Proof.
  intros Hsize Hu8. revert st.
  induction idxs as [|i idxs IH]; intros st Hf Hshape Hpx Hmask Htext.
  - cbn in Hf. inversion Hf; by subst.
  - apply for_each_cons_Ok in Hf as (st' & Hit & Hf).
    apply iteration_Ok in Hit.
    apply (IH st' Hf).
    + by eapply outcome_shape.
    + eapply outcome_frame; eauto.
      intros label org Hin. apply Htext.
      eapply elem_of_prefix; [exact Hin|]. by eapply for_each_texts.
    + done.
    + done.
Qed.

End Frame.

(** ** The frame of the returned image *)

Section FrameClaims.
Context `{Externals}.

Lemma draw_instance_predictions_Ok img0 boxes masks labels scores t out :
  draw_instance_predictions img0 boxes masks labels scores t = Ok out ->
  exists st, run img0 boxes masks labels scores t = Ok st /\
             out = astype_u8 (img st) /\
             rendered_labels img0 boxes masks labels scores t = texts st.
Proof.
  unfold draw_instance_predictions, rendered_labels.
  destruct (run img0 boxes masks labels scores t) as [st|e]; cbn; [|done].
  intros Hout. inversion Hout. by exists st.
Qed.

(** Away from the accepted masks and from the labels the source is
    returned: in the image returned by [draw_instance_predictions], every
    pixel that lies outside the mask of every accepted instance and that no
    rendered label paints is identical to the pixel of the source image. *)
Lemma frame_outside_masks_and_labels img0 boxes masks labels scores t out r c :
  same_size img0 masks -> u8_image img0 ->
  draw_instance_predictions img0 boxes masks labels scores t = Ok out ->
  outside_accepted_masks masks scores t r c ->
  outside_labels img0 (rendered_labels img0 boxes masks labels scores t) r c ->
  at2 out r c = at2 img0 r c.
Proof.
  intros Hsize Hu8 Hout Hmasks Hlabels.
  apply draw_instance_predictions_Ok in Hout as (st & Hrun & -> & Htexts).
  rewrite Htexts in Hlabels. unfold run in Hrun.
  eapply for_each_frame; eauto.
  cbn. by destruct Hsize.
Qed.

(** With a single instance, every pixel of the image that its label paints
    is black in the returned image, inside the mask or not. *)
Lemma single_label_paints_black img0 boxes h w m labels scores t s l label r c :
  same_size img0 (MaskStack h w [m]) ->
  scores !! 0%nat = Some s -> (t <= s)%Q -> np_where m <> [] ->
  labels !! 0%nat = Some l -> label_text l = Ok label ->
  (r < h)%nat -> (c < w)%nat ->
  (Z.of_nat c, Z.of_nat r) ∈ text_pixels (height img0) (width img0) label (anchor m) ->
  exists out,
    draw_instance_predictions img0 boxes (MaskStack h w [m]) labels scores t = Ok out /\
    at2 out r c = Some (0, 0, 0).
Proof.
  intros Hsize Hs Hge Hne Hl Hlabel Hr Hc Hin.
  unfold draw_instance_predictions, run. cbn [planes length seq for_each].
  rewrite (iteration_accepted_label _ _ _ _ _ _ m _ Hs Hge) by done.
  rewrite (np_index_Some _ _ _ Hl), bind_Ok, Hlabel.
  rewrite ?bind_Ok, ?mret_Ok, ?bind_Ok.
  eexists. split; [reflexivity|]. cbn [img draws texts].
  destruct Hsize as [H0 Hms]. cbn [shape_h shape_w planes] in H0, Hms.
  apply (putText_painted h w img0); try done.
  apply blend_shape; [done|]. by inversion Hms.
Qed.

(** C1: the label of an accepted instance is drawn at the centroid of its
    mask and is not clipped to the mask (lines 66 to 70, below the comment
    "Draw label inside the mask").  With a single accepted instance, a pixel
    of the image that the text covers outside the mask is returned black,
    whatever the source held there: where the source was not black, a pixel
    outside the mask of every accepted instance differs from the source. *)
Theorem label_is_drawn_outside_the_mask img0 boxes h w m labels scores t s l label r c :
  same_size img0 (MaskStack h w [m]) ->
  scores !! 0%nat = Some s -> (t <= s)%Q -> np_where m <> [] ->
  labels !! 0%nat = Some l -> label_text l = Ok label ->
  (r < h)%nat -> (c < w)%nat ->
  (Z.of_nat c, Z.of_nat r) ∈ text_pixels (height img0) (width img0) label (anchor m) ->
  mask_at m r c = false ->
  at2 img0 r c <> Some (0, 0, 0) ->
  exists out,
    draw_instance_predictions img0 boxes (MaskStack h w [m]) labels scores t = Ok out /\
    outside_accepted_masks (MaskStack h w [m]) scores t r c /\
    at2 out r c = Some (0, 0, 0) /\
    at2 out r c <> at2 img0 r c /\
    ~ masks_frame img0 boxes (MaskStack h w [m]) labels scores t.
Proof.
  intros Hsize Hs Hge Hne Hl Hlabel Hr Hc Hin Hmask Hsrc.
  destruct (single_label_paints_black img0 boxes h w m labels scores t s l label r c)
    as (out & Hout & Hblack); try done.
  assert (outside_accepted_masks (MaskStack h w [m]) scores t r c) as Houtside.
  { intros [|i] m' Hm' _; [|done]. cbn in Hm'. by inversion Hm'; subst. }
  exists out. split; [done|]. split; [done|]. split; [done|]. split.
  - by rewrite Hblack.
  - intros Hframe. apply Hsrc. by rewrite <- (Hframe out Hout r c Houtside).
Qed.

End FrameClaims.
(** ** The rounding to float32 *)

Lemma pow2_pos e : (0 < F32.pow2 e)%Q.
Proof. apply Qpower_0_lt. reflexivity. Qed.

Lemma pow2_add a b : (F32.pow2 (a + b) == F32.pow2 a * F32.pow2 b)%Q.
Proof. apply Qpower_plus. discriminate. Qed.

Lemma pow2_le a b : a <= b -> (F32.pow2 a <= F32.pow2 b)%Q.
Proof. intros Hab. apply Qpower_le_compat_l; [done|]. discriminate. Qed.

Lemma pow2_lt a b : a < b -> (F32.pow2 a < F32.pow2 b)%Q.
Proof. intros Hab. apply Qpower_lt_compat_l; [done|]. reflexivity. Qed.

Lemma pow2_Z n : 0 <= n -> (F32.pow2 n == inject_Z (2 ^ n))%Q.
Proof. intros Hn. unfold F32.pow2. by rewrite Zpower_Qpower. Qed.

Lemma pow2_cancel u : (F32.pow2 (- u) * F32.pow2 u == 1)%Q.
Proof. rewrite <- pow2_add. by replace (- u + u) with 0 by lia. Qed.

Lemma ilog2_spec x :
  (0 < x)%Q -> (F32.pow2 (F32.ilog2 x) <= x)%Q /\ (x < F32.pow2 (F32.ilog2 x + 1))%Q.
Proof.
  intros Hx. destruct x as [a b]. unfold F32.ilog2. cbn [Qnum Qden].
  assert (0 < a) as Ha.
  { unfold Qlt in Hx. cbn in Hx. lia. }
  set (la := Z.log2 a). set (lb := Z.log2 (Z.pos b)).
  assert (0 <= la) as Hla by apply Z.log2_nonneg.
  assert (0 <= lb) as Hlb by apply Z.log2_nonneg.
  destruct (Z.log2_spec a Ha) as [Ha1 Ha2]. fold la in Ha1, Ha2.
  destruct (Z.log2_spec (Z.pos b) eq_refl) as [Hb1 Hb2]. fold lb in Hb1, Hb2.
  assert (F32.pow2 (la - lb - 1) <= a # b)%Q as Hlow.
  { apply (Qmult_le_r _ _ (F32.pow2 (lb + 1))); [apply pow2_pos|].
    rewrite <- pow2_add. replace (la - lb - 1 + (lb + 1)) with la by lia.
    rewrite !pow2_Z by lia. unfold Qle, Qmult, inject_Z. cbn [Qnum Qden].
    replace (Z.succ lb) with (lb + 1) in Hb2 by lia. nia. }
  assert (a # b < F32.pow2 (la - lb + 1))%Q as Hhigh.
  { apply (Qmult_lt_r _ _ (F32.pow2 lb)); [apply pow2_pos|].
    rewrite <- pow2_add. replace (la - lb + 1 + lb) with (la + 1) by lia.
    rewrite !pow2_Z by lia. unfold Qlt, Qmult, inject_Z. cbn [Qnum Qden].
    replace (Z.succ la) with (la + 1) in Ha2 by lia. nia. }
  destruct (Qle_bool (F32.pow2 (la - lb)) (a # b)) eqn:Hcmp.
  - apply Qle_bool_iff in Hcmp. by split.
  - split; [done|]. replace (la - lb - 1 + 1) with (la - lb) by lia.
    apply Qnot_le_lt. intros Hle. apply Qle_bool_iff in Hle. congruence.
Qed.

Lemma ilog2_unique x e :
  (F32.pow2 e <= x)%Q -> (x < F32.pow2 (e + 1))%Q -> F32.ilog2 x = e.
Proof.
  intros Hlo Hhi.
  assert (0 < x)%Q as Hx by (eapply Qlt_le_trans; [apply pow2_pos | exact Hlo]).
  destruct (ilog2_spec x Hx) as [Hlo' Hhi'].
  destruct (Z.lt_trichotomy (F32.ilog2 x) e) as [Hlt | [Heq | Hgt]]; [|done|].
  - exfalso. assert (F32.pow2 (F32.ilog2 x + 1) <= F32.pow2 e)%Q by (apply pow2_le; lia). lra.
  - exfalso. assert (F32.pow2 (e + 1) <= F32.pow2 (F32.ilog2 x))%Q by (apply pow2_le; lia). lra.
Qed.

Lemma ilog2_mono x y : (0 < x)%Q -> (x <= y)%Q -> F32.ilog2 x <= F32.ilog2 y.
Proof.
  intros Hx Hxy.
  destruct (ilog2_spec x Hx) as [Hlo _].
  destruct (ilog2_spec y) as [_ Hhi]; [lra|].
  destruct (Z.le_gt_cases (F32.ilog2 x) (F32.ilog2 y)) as [|Hgt]; [done|].
  exfalso. assert (F32.pow2 (F32.ilog2 y + 1) <= F32.pow2 (F32.ilog2 x))%Q by (apply pow2_le; lia).
  lra.
Qed.

Ltac qcmp H :=
  first [ apply (proj2 (Qeq_alt _ _)) in H
        | apply (proj2 (Qlt_alt _ _)) in H
        | apply (proj2 (Qgt_alt _ _)) in H ].

Lemma rint_bounds y : Qfloor y <= F32.rint y <= Qfloor y + 1.
Proof.
  unfold F32.rint. destruct (y - inject_Z (Qfloor y) ?= 1 # 2)%Q; [|lia..].
  destruct (Z.even (Qfloor y)); lia.
Qed.

Lemma rint_Z n : F32.rint (inject_Z n) = n.
Proof.
  unfold F32.rint. rewrite Qfloor_Z.
  assert ((inject_Z n - inject_Z n ?= 1 # 2)%Q = Lt) as Hlt by (apply (proj1 (Qlt_alt _ _)); lra).
  by rewrite Hlt.
Qed.

Lemma rint_mono x y : (x <= y)%Q -> F32.rint x <= F32.rint y.
Proof.
  intros Hxy. pose proof (Qfloor_resp_le _ _ Hxy) as Hf.
  pose proof (rint_bounds x) as Hx. pose proof (rint_bounds y) as Hy.
  destruct (Z.eq_dec (Qfloor x) (Qfloor y)) as [Heq|Hne]; [|lia].
  unfold F32.rint in *. rewrite <- Heq in *.
  destruct (x - inject_Z (Qfloor x) ?= 1 # 2)%Q eqn:Hcx;
    destruct (y - inject_Z (Qfloor x) ?= 1 # 2)%Q eqn:Hcy;
    try (destruct (Z.even (Qfloor x)); lia); try lia; exfalso;
    qcmp Hcx; qcmp Hcy; lra.
Qed.

Lemma round_pos_mono x y :
  (0 < x)%Q -> (x <= y)%Q -> (F32.round_pos x <= F32.round_pos y)%Q.
Proof.
  intros Hx Hxy. assert (0 < y)%Q as Hy by lra.
  pose proof (ilog2_mono x y Hx Hxy) as He.
  destruct (ilog2_spec x Hx) as [Hxlo Hxhi]. destruct (ilog2_spec y Hy) as [Hylo Hyhi].
  unfold F32.round_pos. cbv zeta.
  set (ux := F32.ulp_exp x). set (uy := F32.ulp_exp y).
  assert (ux <= uy) as Hu by (unfold ux, uy, F32.ulp_exp; lia).
  destruct (Z.eq_dec ux uy) as [Heq|Hne].
  - rewrite <- Heq. apply Qmult_le_compat_r; [|apply Qlt_le_weak, pow2_pos].
    rewrite <- Zle_Qle. apply rint_mono.
    apply Qmult_le_compat_r; [done|apply Qlt_le_weak, pow2_pos].
  - assert (uy = F32.ilog2 y - 23) as Huy by (unfold ux, uy, F32.ulp_exp in *; lia).
    assert (F32.ilog2 x - 23 <= ux) as Hux by (unfold ux, F32.ulp_exp; lia).
    apply (Qle_trans _ (F32.pow2 (ux + 24))).
    + rewrite pow2_add, (Qmult_comm (F32.pow2 ux)).
      apply Qmult_le_compat_r; [|apply Qlt_le_weak, pow2_pos].
      rewrite (pow2_Z 24) by lia. rewrite <- Zle_Qle.
      rewrite <- (rint_Z (2 ^ 24)). apply rint_mono.
      rewrite <- pow2_Z by lia.
      apply (Qmult_le_r _ _ (F32.pow2 ux)); [apply pow2_pos|].
      rewrite <- Qmult_assoc, pow2_cancel, Qmult_1_r, <- pow2_add.
      apply Qlt_le_weak. eapply Qlt_le_trans; [exact Hxhi|]. apply pow2_le. lia.
    + apply (Qle_trans _ (F32.pow2 (uy + 23))); [apply pow2_le; lia|].
      rewrite pow2_add, (Qmult_comm (F32.pow2 uy)).
      apply Qmult_le_compat_r; [|apply Qlt_le_weak, pow2_pos].
      rewrite (pow2_Z 23) by lia. rewrite <- Zle_Qle.
      rewrite <- (rint_Z (2 ^ 23)) at 1. apply rint_mono.
      rewrite <- pow2_Z by lia.
      apply (Qmult_le_r _ _ (F32.pow2 uy)); [apply pow2_pos|].
      rewrite <- Qmult_assoc, pow2_cancel, Qmult_1_r, <- pow2_add.
      eapply Qle_trans; [|exact Hylo]. apply pow2_le. lia.
Qed.

Lemma round_pos_nonneg x : (0 < x)%Q -> (0 <= F32.round_pos x)%Q.
Proof.
  intros Hx. unfold F32.round_pos. cbv zeta.
  apply Qmult_le_0_compat; [|apply Qlt_le_weak, pow2_pos].
  replace 0%Q with (inject_Z 0) by done. rewrite <- Zle_Qle.
  rewrite <- (rint_Z 0). apply rint_mono. cbn.
  apply Qmult_le_0_compat; [lra | apply Qlt_le_weak, pow2_pos].
Qed.

(** The rounding is monotone. *)
Lemma F32_round_mono x y : (x <= y)%Q -> (F32.round x <= F32.round y)%Q.
Proof.
  intros Hxy. unfold F32.round.
  destruct (x ?= 0)%Q eqn:Hcx; destruct (y ?= 0)%Q eqn:Hcy;
    qcmp Hcx; qcmp Hcy; try lra.
  - apply round_pos_nonneg. lra.
  - assert (0 <= F32.round_pos (- x))%Q by (apply round_pos_nonneg; lra). lra.
  - assert (F32.round_pos (- y) <= F32.round_pos (- x))%Q by (apply round_pos_mono; lra). lra.
  - assert (0 <= F32.round_pos (- x))%Q by (apply round_pos_nonneg; lra).
    assert (0 <= F32.round_pos y)%Q by (apply round_pos_nonneg; lra). lra.
  - by apply round_pos_mono.
Qed.

Lemma rint_eq y k : (y == inject_Z k)%Q -> F32.rint y = k.
Proof.
  intros Hy. apply Z.le_antisymm.
  - rewrite <- (rint_Z k). apply rint_mono. lra.
  - rewrite <- (rint_Z k). apply rint_mono. lra.
Qed.

Lemma round_pos_representable n u :
  0 < n < 2 ^ 24 -> -149 <= u ->
  forall x, (x == inject_Z n * F32.pow2 u)%Q -> (F32.round_pos x == x)%Q.
Proof.
  intros Hn Hu x Hx.
  assert (0 < n) as Hn0 by lia.
  destruct (Z.log2_spec n Hn0) as [Hl1 Hl2].
  assert (0 <= Z.log2 n) as Hl0 by apply Z.log2_nonneg.
  assert (Z.log2 n < 24) as Hl24.
  { apply Z.log2_lt_pow2; lia. }
  assert (F32.ilog2 x = Z.log2 n + u) as He.
  { apply ilog2_unique; rewrite Hx.
    - rewrite pow2_add, (pow2_Z (Z.log2 n)) by lia.
      apply Qmult_le_compat_r; [by rewrite <- Zle_Qle | apply Qlt_le_weak, pow2_pos].
    - replace (Z.log2 n + u + 1) with (Z.succ (Z.log2 n) + u) by lia.
      rewrite pow2_add, (pow2_Z (Z.succ (Z.log2 n))) by lia.
      apply Qmult_lt_compat_r; [apply pow2_pos | by rewrite <- Zlt_Qlt]. }
  unfold F32.round_pos. cbv zeta.
  set (ux := F32.ulp_exp x).
  assert (ux <= u) as Hux by (unfold ux, F32.ulp_exp; lia).
  assert (x * F32.pow2 (- ux) == inject_Z (n * 2 ^ (u - ux)))%Q as Hint.
  { rewrite Hx, inject_Z_mult, <- (pow2_Z (u - ux)) by lia.
    rewrite <- Qmult_assoc, <- pow2_add. by replace (u + - ux) with (u - ux) by lia. }
  rewrite (rint_eq _ _ Hint), Hx, inject_Z_mult, <- (pow2_Z (u - ux)) by lia.
  rewrite <- Qmult_assoc, <- pow2_add. by replace (u - ux + ux) with u by lia.
Qed.

(** A float32 is its own rounding. *)
Lemma F32_round_representable x : F32.representable x -> (F32.round x == x)%Q.
Proof.
  intros (n & u & Hn & Hu & Hx). unfold F32.round.
  destruct (x ?= 0)%Q eqn:Hc; qcmp Hc.
  - by symmetry.
  - assert (n < 0) as Hneg.
    { destruct (Z.lt_ge_cases n 0) as [|Hge]; [done|]. exfalso.
      assert (0 <= inject_Z n * F32.pow2 u)%Q; [|lra].
      apply Qmult_le_0_compat; [|apply Qlt_le_weak, pow2_pos].
      replace 0%Q with (inject_Z 0) by done. by rewrite <- Zle_Qle. }
    rewrite (round_pos_representable (- n) u); [lra|lia|done|].
    rewrite Hx, inject_Z_opp. lra.
  - assert (0 < n) as Hpos.
    { destruct (Z.lt_ge_cases 0 n) as [|Hle]; [done|]. exfalso.
      assert (0 <= inject_Z (- n) * F32.pow2 u)%Q as Hnn.
      { apply Qmult_le_0_compat; [|apply Qlt_le_weak, pow2_pos].
        replace 0%Q with (inject_Z 0) by done. rewrite <- Zle_Qle. lia. }
      rewrite inject_Z_opp in Hnn. lra. }
    apply (round_pos_representable n u); [lia|done|done].
Qed.

(** The default threshold is a float32. *)
Lemma F32_round_half : (F32.round (1 # 2) == 1 # 2)%Q.
Proof. apply F32_round_representable. exists 1, (-1). split; [done|]. split; [done|]. reflexivity. Qed.

(** On the samples, of either sign, the rounding is that of the Standard
    Library's IEEE 754. *)
Example F32_round_agrees :
  forallb (fun e => forallb (fun m => F32.agree m e && F32.agree (- m) e)
                            F32.sample_significands)
          F32.sample_exponents = true.
Proof. vm_compute. reflexivity. Qed.

(** On the Python floats [0.7], [0.1] and [1 / 3] the rounding is that of
    the Standard Library's IEEE 754. *)
Example F32_round_samples :
  (F32.round thresh_0_7 == score_0_7)%Q
  /\ F32.of_binary64 6305039478318694 (-53) = S754_finite false 11744051 (-24)
  /\ (F32.round (3602879701896397 # 36028797018963968)
      == F32.to_Q (F32.of_binary64 3602879701896397 (-55)))%Q
  /\ (F32.round (6004799503160661 # 18014398509481984)
      == F32.to_Q (F32.of_binary64 6004799503160661 (-54)))%Q
  /\ (F32.round thresh_0_7 == F32.to_Q (F32.of_binary64 6305039478318694 (-53)))%Q
  /\ (score_0_7 < thresh_0_7)%Q.
Proof. repeat split; vm_compute; reflexivity. Qed.


(** ** The threshold *)

Lemma accepts_rejected scores t i s :
  scores !! i = Some s -> (s < t)%Q -> accepts scores t i = false.
Proof.
  intros Hs Hlt. unfold accepts. rewrite Hs. apply Qltb_lt in Hlt. by rewrite Hlt.
Qed.

Lemma accepts_accepted scores t i s :
  scores !! i = Some s -> (t <= s)%Q -> accepts scores t i = true.
Proof. intros Hs Hge. apply accepts_spec. by exists s. Qed.

Lemma accepted_set_antitone_le scores t1 t2 :
  (t1 <= t2)%Q -> accepted_set scores t2 ⊆ accepted_set scores t1.
Proof.
  intros Hle i. unfold accepted_set. rewrite !list_elem_of_filter.
  intros [Hacc Hi]. split; [|done].
  apply accepts_spec in Hacc as (s & Hs & Hge). apply accepts_spec.
  exists s. split; [done|]. by eapply Qle_trans.
Qed.

Lemma accepted_set_antitone scores t1 t2 :
  (t1 < t2)%Q -> accepted_set scores t2 ⊆ accepted_set scores t1.
Proof. intros Hlt. by apply accepted_set_antitone_le, Qlt_le_weak. Qed.

(** The threshold that is compared grows with the threshold that is
    passed, and is the threshold itself when that is a float32. *)
Lemma compared_thresh_mono v t1 t2 :
  (t1 <= t2)%Q -> (compared_thresh v t1 <= compared_thresh v t2)%Q.
Proof. intros Hle. destruct v; cbn; [done|]. by apply F32_round_mono. Qed.

Lemma compared_thresh_representable v t :
  F32.representable t -> (compared_thresh v t == t)%Q.
Proof. intros Hrep. destruct v; cbn; [reflexivity|]. by apply F32_round_representable. Qed.

Section Threshold.
Context `{Externals}.

Lemma outcome_draws masks labels scores t i st st' :
  outcome masks labels scores t i st st' ->
  draws st' = (draws st + (if accepts scores t i then 1 else 0))%nat.
Proof.
  intros [s Hs Hlt | s m Hs Hge _ _ | s m l label Hs Hge _ _ _ _]; cbn [draws].
  - rewrite (accepts_rejected _ _ _ _ Hs Hlt). lia.
  - rewrite (accepts_accepted _ _ _ _ Hs Hge). lia.
  - rewrite (accepts_accepted _ _ _ _ Hs Hge). lia.
Qed.

Lemma for_each_draws masks labels scores t idxs st stf :
  for_each (iteration masks labels scores t) idxs st = Ok stf ->
  draws stf =
  (draws st + length (filter (fun i => accepts scores t i = true) idxs))%nat.
Proof.
  revert st. induction idxs as [|i idxs IH]; intros st Hf.
  - cbn in Hf. inversion Hf; subst. cbn. lia.
  - apply for_each_cons_Ok in Hf as (st' & Hit & Hf).
    rewrite (IH _ Hf). apply iteration_Ok, outcome_draws in Hit. rewrite Hit.
    destruct (accepts scores t i) eqn:Hacc.
    + rewrite filter_cons_True by done. cbn. lia.
    + rewrite filter_cons_False by (by rewrite Hacc). lia.
Qed.


(** What the iteration of an accepted instance does when it returns. *)
Lemma iteration_accepted_Ok masks labels scores t i s m st st' :
  scores !! i = Some s -> (t <= s)%Q -> planes masks !! i = Some m ->
  iteration masks labels scores t i st = Ok st' ->
  draws st' = S (draws st) /\
  (img st' = blend (img st) m (randint (draws st)) /\ texts st' = texts st
   \/ exists label,
        img st' = putText (blend (img st) m (randint (draws st))) label (anchor m)
        /\ texts st' = texts st ++ [(label, anchor m)]).
Proof.
  intros Hs Hge Hm Hit. apply iteration_Ok in Hit.
  destruct Hit as [s' Hs' Hlt | s' m' _ _ Hm' _ | s' m' l label _ _ Hm' _ _ _];
    cbn [img draws texts].
  - exfalso. rewrite Hs in Hs'. inversion Hs'; subst s'.
    by apply (Qlt_not_le s t).
  - rewrite Hm in Hm'. inversion Hm'; subst m'. split; [done|]. by left.
  - rewrite Hm in Hm'. inversion Hm'; subst m'. split; [done|].
    right. by exists label.
Qed.

(** C2, as amended: the threshold is a hard cutoff at the value that
    line 49 compares.  With [t'] the threshold as compared, which is [t]
    under NumPy 1 and [t] rounded to float32 under NumPy 2: an iteration whose
    score is below [t'] leaves the image, the colour stream and the labels as
    they were; an iteration whose score is at least [t'] blends its mask into
    the current image with a fresh colour (and then draws its label, if any);
    a completed call has blended as many instances as pass the test; raising
    [t] only shrinks the set of accepted instances; [t'] is [t] under NumPy 1
    and for every [t] that is a float32, such as the default; and a float32
    score that is at least [t] is at least [t'], so every instance with
    [scores[i] >= t] is accepted. *)
Theorem threshold_is_a_hard_cutoff v masks labels scores t :
  (forall i s st, scores !! i = Some s -> (s < compared_thresh v t)%Q ->
     iteration masks labels scores (compared_thresh v t) i st = Ok st)
  /\ (forall i s m st st', scores !! i = Some s -> (compared_thresh v t <= s)%Q ->
        planes masks !! i = Some m ->
        iteration masks labels scores (compared_thresh v t) i st = Ok st' ->
        draws st' = S (draws st) /\
        (img st' = blend (img st) m (randint (draws st)) /\ texts st' = texts st
         \/ exists label,
              img st' = putText (blend (img st) m (randint (draws st))) label (anchor m)
              /\ texts st' = texts st ++ [(label, anchor m)]))
  /\ (forall img0 boxes st,
        run img0 boxes masks labels scores (compared_thresh v t) = Ok st ->
        draws st = length (filter (fun i => accepts scores (compared_thresh v t) i = true)
                                  (seq 0 (length (planes masks)))))
  /\ (forall t2, (t < t2)%Q ->
        accepted_set scores (compared_thresh v t2)
        ⊆ accepted_set scores (compared_thresh v t))
  /\ (v = NumPy1 \/ F32.representable t -> (compared_thresh v t == t)%Q)
  /\ (forall i s, scores !! i = Some s -> F32.representable s -> (t <= s)%Q ->
        (compared_thresh v t <= s)%Q /\ accepts scores (compared_thresh v t) i = true).
Proof.
  split; [|split; [|split; [|split; [|split]]]].
  - intros i s st. apply iteration_rejected.
  - intros i s m st st'. apply iteration_accepted_Ok.
  - intros img0 boxes st Hrun. unfold run in Hrun.
    by rewrite (for_each_draws _ _ _ _ _ _ _ Hrun).
  - intros t2 Hlt. by apply accepted_set_antitone_le, compared_thresh_mono, Qlt_le_weak.
  - intros [-> | Hrep]; [reflexivity|]. by apply compared_thresh_representable.
  - intros i s Hs Hrep Hle.
    assert (compared_thresh v t <= s)%Q as Hge.
    { rewrite <- (compared_thresh_representable v s Hrep).
      by apply compared_thresh_mono. }
    split; [done|]. by eapply accepts_accepted.
Qed.

End Threshold.

(** ** The merged region *)

Lemma existsb_true {A} (f : A -> bool) (l : list A) :
  existsb f l = true <-> exists i x, l !! i = Some x /\ f x = true.
Proof.
  rewrite existsb_exists. split.
  - intros (x & Hin & Hf). apply list_elem_of_In, list_elem_of_lookup in Hin as [i Hi].
    by exists i, x.
  - intros (i & x & Hi & Hf). exists x. split; [|done].
    apply list_elem_of_In, list_elem_of_lookup. by exists i.
Qed.

Lemma np_any_axis0_at masks r c :
  (r < shape_h masks)%nat -> (c < shape_w masks)%nat ->
  at2 (np_any_axis0 masks) r c
  = Some (existsb (fun m => mask_at m r c) (planes masks)).
Proof.
  intros Hr Hc. unfold at2, np_any_axis0.
  rewrite list_lookup_fmap, lookup_seq_lt by done. cbn.
  by rewrite list_lookup_fmap, lookup_seq_lt.
Qed.

Lemma merged_mask_at masks r c :
  (r < shape_h masks)%nat -> (c < shape_w masks)%nat ->
  at2 (merged_mask masks) r c
  = Some (Z.b2z (existsb (fun m => mask_at m r c) (planes masks))).
Proof.
  intros Hr Hc. unfold merged_mask. by rewrite at2_grid_map, np_any_axis0_at.
Qed.

Lemma np_any_axis0_ext h w (l l' : list (grid bool)) :
  (forall r c, existsb (fun m => mask_at m r c) l = existsb (fun m => mask_at m r c) l') ->
  np_any_axis0 (MaskStack h w l) = np_any_axis0 (MaskStack h w l').
Proof.
  intros Hext. unfold np_any_axis0. cbn [shape_h shape_w planes].
  apply list_fmap_ext. intros _ r _. apply list_fmap_ext. intros _ c _. apply Hext.
Qed.

Lemma existsb_Permutation {A} (f : A -> bool) (l l' : list A) :
  l ≡ₚ l' -> existsb f l = existsb f l'.
Proof.
  induction 1 as [|x l l' _ IH|x y l|l l' l'' _ IH1 _ IH2]; cbn.
  - done.
  - by rewrite IH.
  - by destruct (f x), (f y).
  - by rewrite IH1.
Qed.

Lemma has_shape_np_any_axis0 masks :
  has_shape (shape_h masks) (shape_w masks) (np_any_axis0 masks).
Proof.
  unfold np_any_axis0. split.
  - by rewrite length_fmap, length_seq.
  - rewrite Forall_fmap. apply Forall_forall. intros r _. cbn.
    by rewrite length_fmap, length_seq.
Qed.

Section MergeClaims.
Context `{Externals}.


(** C8: with no instance the compositor returns the source image, with no
    label, and the merged region is the all-zero grid of the mask array's
    height and width (those of the source image). *)
Theorem zero_instances img0 boxes h w labels scores t :
  draw_instance_predictions img0 boxes (MaskStack h w []) labels scores t = Ok img0
  /\ rendered_labels img0 boxes (MaskStack h w []) labels scores t = []
  /\ merged_mask (MaskStack h w []) = replicate h (replicate w 0)
  /\ has_shape h w (merged_mask (MaskStack h w [])).
Proof.
  split; [done|]. split; [done|].
  assert (merged_mask (MaskStack h w []) = replicate h (replicate w 0)) as Hm.
  { unfold merged_mask, np_any_axis0, grid_map. cbn [shape_h shape_w planes existsb].
    rewrite (const_fmap _ (seq 0 h) (replicate w false)).
    - rewrite length_seq, fmap_replicate. f_equal. by rewrite fmap_replicate.
    - intros _ r _. rewrite (const_fmap _ (seq 0 w) false) by done.
      by rewrite length_seq. }
  split; [exact Hm|]. rewrite Hm. split.
  - by rewrite length_replicate.
  - apply Forall_forall. intros row Hrow.
    apply elem_of_replicate in Hrow as [-> _].
    by rewrite length_replicate.
Qed.

(** C10: the returned image does not depend on [boxes]. *)
Theorem boxes_are_never_read img0 boxes boxes' masks labels scores t :
  draw_instance_predictions img0 boxes masks labels scores t
  = draw_instance_predictions img0 boxes' masks labels scores t
  /\ rendered_labels img0 boxes masks labels scores t
     = rendered_labels img0 boxes' masks labels scores t.
Proof. split; reflexivity. Qed.

End MergeClaims.

(** C5: the merge is order-independent and idempotent.  A permutation of the
    mask sequence yields the same merged grid; so does giving every mask
    twice; and merging the merged grid alone gives it back. *)
Theorem merge_order_independent_idempotent h w (l l' : list (grid bool)) :
  l ≡ₚ l' ->
  merged_mask (MaskStack h w l) = merged_mask (MaskStack h w l')
  /\ merged_mask (MaskStack h w (l ++ l)) = merged_mask (MaskStack h w l)
  /\ np_any_axis0 (MaskStack h w [np_any_axis0 (MaskStack h w l)])
     = np_any_axis0 (MaskStack h w l).
Proof.
  intros Hperm. split; [|split].
  - unfold merged_mask. f_equal. apply np_any_axis0_ext. intros r c.
    by apply existsb_Permutation.
  - unfold merged_mask. f_equal. apply np_any_axis0_ext. intros r c.
    rewrite existsb_app. apply orb_diag.
  - apply (grid_ext h w).
    + apply (has_shape_np_any_axis0 (MaskStack h w [_])).
    + apply (has_shape_np_any_axis0 (MaskStack h w l)).
    + intros r c Hr Hc.
      rewrite (np_any_axis0_at (MaskStack h w [_]) r c Hr Hc).
      cbn [planes existsb]. rewrite orb_false_r. unfold mask_at at 1.
      by rewrite (np_any_axis0_at (MaskStack h w l) r c Hr Hc).
Qed.

(** The masks of the scenario in either order. *)
Lemma merge_order_independent_idempotent_witness :
  [left_mask; right_mask] ≡ₚ [right_mask; left_mask] /\
  merged_mask (MaskStack 4 4 [left_mask; right_mask])
  = merged_mask (MaskStack 4 4 [right_mask; left_mask]).
Proof.
  assert ([left_mask; right_mask] ≡ₚ [right_mask; left_mask]) as Hperm
    by apply perm_swap.
  split; [exact Hperm|].
  exact (proj1 (merge_order_independent_idempotent 4 4 _ _ Hperm)).
Defined.


(** ** The true pixels are listed once each *)

Lemma elem_of_row_coords_from (r k : nat) (row : list bool) (rc : nat * nat) :
  rc ∈ omap id (imap (fun c (b : bool) => if b then Some (r, (k + c)%nat) else None) row)
  <-> exists c, rc = (r, (k + c)%nat) /\ row !! c = Some true.
Proof.
  rewrite list_elem_of_omap. split.
  - intros (o & Ho & Hrc). apply elem_of_lookup_imap in Ho as (c & b & -> & Hb).
    destruct b; simpl in Hrc; [|done]. inversion Hrc. by exists c.
  - intros (c & -> & Hc). exists (Some (r, (k + c)%nat)). split; [|done].
    apply elem_of_lookup_imap. by exists c, true.
Qed.

Lemma NoDup_row_coords_from (r : nat) (row : list bool) : forall k : nat,
  NoDup (omap id (imap (fun c (b : bool) => if b then Some (r, (k + c)%nat) else None) row)).
Proof.
  induction row as [|b row IH]; intros k; [constructor|].
  rewrite imap_cons.
  assert (imap ((fun c (b : bool) => if b then Some (r, (k + c)%nat) else None) ∘ S) row
          = imap (fun c (b : bool) => if b then Some (r, (S k + c)%nat) else None) row)
    as ->.
  { apply imap_ext. intros c b' _. cbn. by replace (k + S c)%nat with (S (k + c)) by lia. }
  destruct b; cbn [omap list_omap id]; [|apply IH].
  constructor; [|apply IH].
  rewrite elem_of_row_coords_from. intros (c & Heq & _). inversion Heq. lia.
Qed.

Lemma NoDup_row_coords r row : NoDup (row_coords r row).
Proof. apply (NoDup_row_coords_from r row 0). Qed.

Lemma NoDup_np_where_from m : forall k,
  NoDup (mjoin (imap (fun r row => row_coords (k + r) row) m)).
Proof.
  induction m as [|row m IH]; intros k; [constructor|].
  rewrite imap_cons.
  assert (imap ((fun r row => row_coords (k + r) row) ∘ S) m
          = imap (fun r row => row_coords (S k + r) row) m) as ->.
  { apply imap_ext. intros r row' _. cbn. by replace (k + S r)%nat with (S (k + r)) by lia. }
  cbn [mjoin list_join]. apply NoDup_app. split; [apply NoDup_row_coords|].
  split; [|apply IH].
  intros rc Hrc Hrest. apply elem_of_row_coords in Hrc as (c & -> & _).
  apply list_elem_of_join in Hrest as (l & Hin & Hl).
  apply elem_of_lookup_imap in Hl as (r' & row' & -> & _).
  apply elem_of_row_coords in Hin as (c' & Heq & _). inversion Heq. lia.
Qed.

Lemma NoDup_np_where m : NoDup (np_where m).
Proof. apply (NoDup_np_where_from m 0). Qed.

Lemma np_where_nonempty m :
  np_where m <> [] <-> exists r c, mask_at m r c = true.
Proof.
  split.
  - intros Hne. destruct (np_where m) as [|[r c] l] eqn:Hw; [done|].
    exists r, c. apply mask_at_true. rewrite Hw. apply list_elem_of_here.
  - intros (r & c & Hrc) Hnil.
    pose proof (proj1 (np_where_nil m) Hnil r c) as Hfalse. congruence.
Qed.

(** ** The text of a label *)

Section LabelClaims.
Context `{Externals}.

Lemma label_text_catalog l :
  0 <= l < Z.of_nat (length CLASS_NAMES) ->
  exists name, CLASS_NAMES !! Z.to_nat l = Some name /\ label_text l = Ok name.
Proof.
  intros [Hlo Hhi]. unfold label_text, py_index.
  destruct (lookup_lt_is_Some_2 CLASS_NAMES (Z.to_nat l)) as [name Hname]; [lia|].
  exists name. split; [done|].
  rewrite (proj2 (Z.ltb_lt _ _) Hhi), (proj2 (Z.leb_le _ _) Hlo).
  by apply np_index_Some.
Qed.

Lemma label_text_fallback l :
  Z.of_nat (length CLASS_NAMES) <= l -> label_text l = Ok (pretty l).
Proof.
  intros Hge. unfold label_text. by rewrite (proj2 (Z.ltb_ge _ _) Hge).
Qed.

Lemma label_text_below l :
  l < Z.of_nat (length CLASS_NAMES) -> label_text l = py_index CLASS_NAMES l.
Proof.
  intros Hlt. unfold label_text. by rewrite (proj2 (Z.ltb_lt _ _) Hlt).
Qed.

Lemma label_text_negative l :
  l < 0 -> - Z.of_nat (length CLASS_NAMES) <= l ->
  exists name,
    CLASS_NAMES !! Z.to_nat (Z.of_nat (length CLASS_NAMES) + l) = Some name /\
    label_text l = Ok name.
Proof.
  intros Hneg Hlo. rewrite label_text_below by lia. unfold py_index.
  destruct (lookup_lt_is_Some_2 CLASS_NAMES
              (Z.to_nat (Z.of_nat (length CLASS_NAMES) + l))) as [name Hname]; [lia|].
  exists name. split; [done|].
  rewrite (proj2 (Z.leb_gt _ _) Hneg), (proj2 (Z.leb_le _ _) Hlo).
  by apply np_index_Some.
Qed.

Lemma label_text_too_negative l :
  l < - Z.of_nat (length CLASS_NAMES) -> label_text l = Raise IndexError.
Proof.
  intros Hlt. rewrite label_text_below by lia. unfold py_index.
  rewrite (proj2 (Z.leb_gt 0 l)) by lia.
  by rewrite (proj2 (Z.leb_gt _ _) Hlt).
Qed.

(** The label of a completed iteration on an accepted instance with a
    non-empty mask. *)
Lemma iteration_renders masks labels scores t i s m l label st :
  scores !! i = Some s -> (t <= s)%Q -> planes masks !! i = Some m ->
  (exists r c, mask_at m r c = true) ->
  labels !! i = Some l -> label_text l = Ok label ->
  iteration masks labels scores t i st
  = Ok (Canvas (putText (blend (img st) m (randint (draws st))) label (anchor m))
               (S (draws st))
               (texts st ++ [(label, anchor m)])).
Proof.
  intros Hs Hge Hm Hne Hl Hlabel. apply np_where_nonempty in Hne.
  rewrite (iteration_accepted_label _ _ _ _ _ _ _ _ Hs Hge Hm Hne).
  by rewrite (np_index_Some _ _ _ Hl), bind_Ok, Hlabel.
Qed.

Lemma iteration_label_raises masks labels scores t i s m l e st :
  scores !! i = Some s -> (t <= s)%Q -> planes masks !! i = Some m ->
  (exists r c, mask_at m r c = true) ->
  labels !! i = Some l -> label_text l = Raise e ->
  iteration masks labels scores t i st = Raise e.
Proof.
  intros Hs Hge Hm Hne Hl Hlabel. apply np_where_nonempty in Hne.
  rewrite (iteration_accepted_label _ _ _ _ _ _ _ _ Hs Hge Hm Hne).
  by rewrite (np_index_Some _ _ _ Hl), bind_Ok, Hlabel.
Qed.

(** C6: the text of a label.  A label id that is a valid catalog index
    displays the catalog entry at that index; a label id greater than or
    equal to the catalog length displays its decimal string; and that text
    is what an accepted instance with a non-empty mask hands to
    [cv2.putText]. *)
Theorem label_text_lookup (l : Z) :
  (0 <= l < Z.of_nat (length CLASS_NAMES) ->
     exists name, CLASS_NAMES !! Z.to_nat l = Some name /\ label_text l = Ok name)
  /\ (Z.of_nat (length CLASS_NAMES) <= l -> label_text l = Ok (pretty l))
  /\ (forall masks labels scores t i s m label st,
        scores !! i = Some s -> (t <= s)%Q -> planes masks !! i = Some m ->
        (exists r c, mask_at m r c = true) ->
        labels !! i = Some l -> label_text l = Ok label ->
        exists st', iteration masks labels scores t i st = Ok st' /\
                    texts st' = texts st ++ [(label, anchor m)]).
Proof.
  split; [apply label_text_catalog|]. split; [apply label_text_fallback|].
  intros masks labels scores t i s m label st Hs Hge Hm Hne Hl Hlabel.
  eexists. split; [by eapply iteration_renders|]. done.
Qed.

(** C9: the decimal string is used only for ids at or above the catalog
    length.  Every id below it, negative ones included, goes through the
    catalog lookup: a negative id no smaller than minus the catalog length
    displays the entry counted from the end, and a smaller one raises
    [IndexError], which the iteration of an accepted instance with a
    non-empty mask propagates. *)
Theorem negative_label_indexes_from_the_end (l : Z) :
  (l < Z.of_nat (length CLASS_NAMES) -> label_text l = py_index CLASS_NAMES l)
  /\ (l < 0 -> - Z.of_nat (length CLASS_NAMES) <= l ->
        exists name,
          CLASS_NAMES !! Z.to_nat (Z.of_nat (length CLASS_NAMES) + l) = Some name /\
          label_text l = Ok name)
  /\ (l < - Z.of_nat (length CLASS_NAMES) -> label_text l = Raise IndexError)
  /\ (forall masks labels scores t i s m st,
        scores !! i = Some s -> (t <= s)%Q -> planes masks !! i = Some m ->
        (exists r c, mask_at m r c = true) -> labels !! i = Some l ->
        (l < 0 -> - Z.of_nat (length CLASS_NAMES) <= l ->
           exists name st',
             CLASS_NAMES !! Z.to_nat (Z.of_nat (length CLASS_NAMES) + l) = Some name /\
             iteration masks labels scores t i st = Ok st' /\
             texts st' = texts st ++ [(name, anchor m)])
        /\ (l < - Z.of_nat (length CLASS_NAMES) ->
              iteration masks labels scores t i st = Raise IndexError)).
Proof.
  split; [apply label_text_below|]. split; [apply label_text_negative|].
  split; [apply label_text_too_negative|].
  intros masks labels scores t i s m st Hs Hge Hm Hne Hl. split.
  - intros Hneg Hlo. destruct (label_text_negative l Hneg Hlo) as (name & Hname & Htext).
    exists name. eexists. split; [done|].
    split; [by eapply iteration_renders|]. done.
  - intros Hlt. eapply iteration_label_raises; eauto.
    by apply label_text_too_negative.
Qed.

End LabelClaims.

(** ** The label anchor *)

Lemma anchor_eq m x y :
  anchor m = (x, y) ->
  x = sum_cols (np_where m) / Z.of_nat (length (np_where m)) /\
  y = sum_rows (np_where m) / Z.of_nat (length (np_where m)).
Proof. unfold anchor, centroid. intros Heq. by inversion Heq. Qed.

Section AnchorClaims.
Context `{Externals}.

(** C7: the label anchor.  [np.where] lists the true pixels of the mask,
    each once.  When the mask has a true pixel, the anchor is the floor of
    the mean row and of the mean column of these pixels, it lies in every
    box of rows and columns that contains them (hence in the bounding box),
    and it is where the label of an accepted instance is drawn.  When the
    mask has no true pixel, the iteration of an accepted instance returns
    without raising and without drawing a label. *)
Theorem anchor_is_floored_centroid (m : grid bool) :
  (NoDup (np_where m) /\
   forall r c, (r, c) ∈ np_where m <-> mask_at m r c = true)
  /\ ((exists r c, mask_at m r c = true) ->
      forall x y, anchor m = (x, y) ->
      let n := Z.of_nat (length (np_where m)) in
      n * y <= sum_rows (np_where m) < n * (y + 1) /\
      n * x <= sum_cols (np_where m) < n * (x + 1) /\
      (forall lo hi,
         (forall r c, mask_at m r c = true -> lo <= Z.of_nat r <= hi) ->
         lo <= y <= hi) /\
      (forall lo hi,
         (forall r c, mask_at m r c = true -> lo <= Z.of_nat c <= hi) ->
         lo <= x <= hi))
  /\ ((exists r c, mask_at m r c = true) ->
      forall masks labels scores t i s st st',
        scores !! i = Some s -> (t <= s)%Q -> planes masks !! i = Some m ->
        iteration masks labels scores t i st = Ok st' ->
        exists label, texts st' = texts st ++ [(label, anchor m)])
  /\ ((forall r c, mask_at m r c = false) ->
      forall masks labels scores t i s st,
        scores !! i = Some s -> (t <= s)%Q -> planes masks !! i = Some m ->
        iteration masks labels scores t i st
        = Ok (Canvas (blend (img st) m (randint (draws st)))
                     (S (draws st)) (texts st))).
Proof.
  split; [|split; [|split]].
  - split; [apply NoDup_np_where|]. intros r c. symmetry. apply mask_at_true.
  - intros Hne x y Hxy. apply np_where_nonempty in Hne.
    apply anchor_eq in Hxy as [-> ->]. cbv zeta.
    assert (0 < Z.of_nat (length (np_where m))) as Hn.
    { destruct (np_where m); [done | cbn; lia]. }
    split; [by apply quotient_floor|]. split; [by apply quotient_floor|].
    split.
    + intros lo hi Hbox. apply quotient_between; [done|].
      apply sum_rows_bounds. intros [r c] Hrc. apply (Hbox r c).
      by apply mask_at_true.
    + intros lo hi Hbox. apply quotient_between; [done|].
      apply sum_cols_bounds. intros [r c] Hrc. apply (Hbox r c).
      by apply mask_at_true.
  - intros Hne masks labels scores t i s st st' Hs Hge Hm Hit.
    apply np_where_nonempty in Hne.
    rewrite (iteration_accepted_label _ _ _ _ _ _ _ _ Hs Hge Hm Hne) in Hit.
    destruct (np_index labels i) as [l|e]; [|done]. rewrite bind_Ok in Hit.
    destruct (label_text l) as [label|e]; [|done].
    rewrite bind_Ok, mret_Ok in Hit. inversion Hit. by exists label.
  - intros Hempty masks labels scores t i s st Hs Hge Hm.
    apply np_where_nil in Hempty. by eapply iteration_accepted_empty.
Qed.

End AnchorClaims.

(** ** The blend *)

Section BlendClaims.
Context `{Externals}.

Lemma outcome_dtype masks labels scores t i st st' :
  outcome masks labels scores t i st st' ->
  img st' = img st \/ exists a, img st' = F64 a.
Proof.
  intros [| |]; cbn [img]; [by left | right; by eexists | right].
  unfold blend, putText. by eexists.
Qed.

Lemma for_each_dtype masks labels scores t idxs st stf :
  for_each (iteration masks labels scores t) idxs st = Ok stf ->
  img stf = img st \/ exists a, img stf = F64 a.
Proof.
  revert st. induction idxs as [|i idxs IH]; intros st Hf.
  - cbn in Hf. inversion Hf. by left.
  - apply for_each_cons_Ok in Hf as (st' & Hit & Hf).
    apply iteration_Ok, outcome_dtype in Hit.
    destruct (IH _ Hf) as [Heq | Hf64]; [|by right].
    rewrite Heq. destruct Hit as [-> | Hf64]; [by left | by right].
Qed.

Lemma putText_frame_f64 h w (img0 : grid (pixel Z)) im label org r c :
  has_shape h w img0 -> image_shape h w im ->
  (Z.of_nat c, Z.of_nat r) ∉ text_pixels (height img0) (width img0) label org ->
  at2 (as_f64 (putText im label org)) r c = at2 (as_f64 im) r c.
Proof.
  intros H0 Him Hout. destruct im as [a|a]; cbn [putText as_f64];
    cbn [image_shape] in Him;
    destruct (has_shape_width _ _ _ _ Him H0) as [-> ->].
  - rewrite !at2_grid_map, at2_paint, bool_decide_eq_false_2 by done.
    by destruct (at2 a r c).
  - rewrite at2_paint, bool_decide_eq_false_2 by done.
    by destruct (at2 a r c).
Qed.

Lemma as_f64_shape h w im : image_shape h w im -> has_shape h w (as_f64 im).
Proof. destruct im; cbn; [apply has_shape_grid_map | done]. Qed.

Lemma outcome_sequential (img0 : grid (pixel Z)) masks labels scores t i st st' r c v :
  same_size img0 masks ->
  outcome masks labels scores t i st st' ->
  image_shape (shape_h masks) (shape_w masks) (img st) ->
  at2 (as_f64 (img st)) r c = Some v ->
  outside_labels img0 (texts st') r c ->
  at2 (as_f64 (img st')) r c
  = Some (sequential_blend masks scores t r c [i] (draws st) v).
Proof.
  intros [H0 Hms] Hout Hshape Hv Htext. rewrite Forall_lookup in Hms.
  assert (forall s m, scores !! i = Some s -> (t <= s)%Q ->
            planes masks !! i = Some m ->
            at2 (as_f64 (blend (img st) m (randint (draws st)))) r c
            = Some (sequential_blend masks scores t r c [i] (draws st) v)) as Hblend.
  { intros s m Hs Hge Hm. cbn [sequential_blend].
    rewrite (accepts_accepted _ _ _ _ Hs Hge), Hm. cbn [default from_option id].
    rewrite blend_at, Hv.
    assert (is_Some (at2 m r c)) as [b Hb].
    { apply (has_shape_at2 _ _ _ r c (Hms _ _ Hm)).
      apply (has_shape_at2 _ _ _ r c (as_f64_shape _ _ _ Hshape)). by eexists. }
    unfold mask_at. rewrite Hb. done. }
  destruct Hout as [s Hs Hlt | s m Hs Hge Hm _ | s m l label Hs Hge Hm _ _ _];
    cbn [img texts draws] in *.
  - cbn [sequential_blend]. by rewrite (accepts_rejected _ _ _ _ Hs Hlt).
  - by eapply Hblend.
  - rewrite (putText_frame_f64 (shape_h masks) (shape_w masks) img0).
    + by eapply Hblend.
    + done.
    + apply blend_shape; [done | by eapply Hms].
    + apply Htext. apply elem_of_app. right. apply list_elem_of_here.
Qed.

Lemma for_each_sequential (img0 : grid (pixel Z)) masks labels scores t r c idxs :
  same_size img0 masks ->
  forall st stf v,
  for_each (iteration masks labels scores t) idxs st = Ok stf ->
  image_shape (shape_h masks) (shape_w masks) (img st) ->
  at2 (as_f64 (img st)) r c = Some v ->
  outside_labels img0 (texts stf) r c ->
  at2 (as_f64 (img stf)) r c
  = Some (sequential_blend masks scores t r c idxs (draws st) v).
Proof.
  intros Hsize. induction idxs as [|i idxs IH]; intros st stf v Hf Hshape Hv Htext.
  - cbn in Hf. inversion Hf; by subst.
  - apply for_each_cons_Ok in Hf as (st' & Hit & Hf).
    apply iteration_Ok in Hit.
    assert (outside_labels img0 (texts st') r c) as Htext'.
    { intros label org Hin. apply Htext.
      eapply elem_of_prefix; [exact Hin|]. by eapply for_each_texts. }
    pose proof (outcome_sequential img0 _ _ _ _ _ _ _ r c v Hsize Hit Hshape Hv Htext')
      as Hstep.
    rewrite (IH st' stf _ Hf (outcome_shape img0 _ _ _ _ _ _ _ Hsize Hit Hshape)
               Hstep Htext).
    f_equal. cbn [sequential_blend].
    pose proof (outcome_draws _ _ _ _ _ _ _ Hit) as Hdraws.
    destruct (accepts scores t i); rewrite Hdraws; f_equal; lia.
Qed.

(** C4, as amended: the blend.  For a mask of the size of the image,
    [blend], lines 52 to 55, sets every pixel where the mask is true to
    [0.5 * current + 0.5 * colour], channel by channel in binary64, and
    leaves the others as they are.  The iteration of
    an accepted instance applies it to the image left by the iterations
    before it, which run in increasing index order, so a later instance
    blends over the result of an earlier one.  The returned image is the
    8-bit truncation of the final array: a pixel that no label paints is
    returned as the truncation of the blends, in index order, of the colours
    of the accepted instances whose masks cover it.  On 8-bit operands one
    blend is exact and truncates to the integer mean rounded down. *)
Theorem blend_is_sequential_half_and_half masks labels scores t :
  (forall h w im m color r c p (b : bool),
     image_shape h w im -> has_shape h w m ->
     at2 (as_f64 im) r c = Some p -> at2 m r c = Some b ->
     at2 (as_f64 (blend im m color)) r c
     = Some (if b then blend_pixel p color else p))
  /\ (forall i s m st st',
        scores !! i = Some s -> (t <= s)%Q -> planes masks !! i = Some m ->
        iteration masks labels scores t i st = Ok st' ->
        img st' = blend (img st) m (randint (draws st)) \/
        exists label,
          img st' = putText (blend (img st) m (randint (draws st))) label (anchor m))
  /\ (forall img0 boxes n, length (planes masks) = S n ->
        run img0 boxes masks labels scores t
        = for_each (iteration masks labels scores t) (seq 0 n) (Canvas (U8 img0) 0 [])
            ≫= iteration masks labels scores t n)
  /\ (forall img0 boxes out, u8_image img0 ->
        draw_instance_predictions img0 boxes masks labels scores t = Ok out ->
        exists st, run img0 boxes masks labels scores t = Ok st /\
          forall r c, at2 out r c = pmap F64.to_u8 <$> at2 (as_f64 (img st)) r c)
  /\ (forall img0 boxes out r c p0, same_size img0 masks -> u8_image img0 ->
        draw_instance_predictions img0 boxes masks labels scores t = Ok out ->
        at2 img0 r c = Some p0 ->
        outside_labels img0 (rendered_labels img0 boxes masks labels scores t) r c ->
        at2 out r c
        = Some (pmap F64.to_u8
                  (sequential_blend masks scores t r c
                     (seq 0 (length (planes masks))) 0 (pmap F64.of_Z p0))))
  /\ (forall p k, u8 p -> u8 k ->
        F64.to_u8 (blend_channel (F64.of_Z p) k) = (p + k) / 2).
Proof.
  split; [|split; [|split; [|split; [|split]]]].
  - intros h w im m color r c p b _ _ Hp Hb. by rewrite blend_at, Hb, Hp.
  - intros i s m st st' Hs Hge Hm Hit.
    destruct (iteration_accepted_Ok _ _ _ _ _ _ _ _ _ Hs Hge Hm Hit)
      as (_ & [[Himg _] | (label & Himg & _)]).
    + by left.
    + right. by exists label.
  - intros img0 boxes n Hn. unfold run. rewrite Hn, seq_S, for_each_app.
    cbn [Nat.add].
    destruct (for_each (iteration masks labels scores t) (seq 0 n)
                (Canvas (U8 img0) 0 [])) as [st|e]; [|done].
    rewrite !bind_Ok. cbn [for_each].
    destruct (iteration masks labels scores t n st); done.
  - intros img0 boxes out Hu8 Hout.
    apply draw_instance_predictions_Ok in Hout as (st & Hrun & -> & _).
    exists st. split; [done|]. intros r c.
    unfold run in Hrun. apply for_each_dtype in Hrun as [Heq | [a Ha]].
    + cbn [img] in Heq. rewrite Heq. symmetry. apply astype_via_f64.
      cbn [astype_u8]. intros p Hp. by eapply u8_image_at2.
    + rewrite Ha. cbn [astype_u8 as_f64]. apply at2_grid_map.
  - intros img0 boxes out r c p0 Hsize Hu8 Hout Hp0 Hlabels.
    apply draw_instance_predictions_Ok in Hout as (st & Hrun & -> & Htexts).
    rewrite Htexts in Hlabels. unfold run in Hrun.
    pose proof (for_each_sequential img0 masks labels scores t r c _ Hsize _ _
                  (pmap F64.of_Z p0) Hrun) as Hseq.
    cbn [img draws] in Hseq.
    assert (at2 (as_f64 (img st)) r c
            = Some (sequential_blend masks scores t r c
                      (seq 0 (length (planes masks))) 0 (pmap F64.of_Z p0))) as Hfinal.
    { apply Hseq; [by destruct Hsize | | done].
      cbn [as_f64]. by rewrite at2_grid_map, Hp0. }
    apply for_each_dtype in Hrun as [Heq | [a Ha]].
    + cbn [img] in Heq. rewrite <- (astype_via_f64 (img st) r c), Hfinal; [done|].
      rewrite Heq. cbn [astype_u8]. intros p Hp. by eapply u8_image_at2.
    + rewrite Ha in Hfinal |- *. cbn [astype_u8 as_f64] in *.
      by rewrite at2_grid_map, Hfinal.
  - apply to_u8_blend_channel.
Qed.

End BlendClaims.

(** ** The end-to-end scenario

    A 4 x 4 image, the left half with score 0.9 and the right half with
    score 0.3, threshold 0.5: only the left half is blended (and labelled,
    at the floor of its centroid), and the merged region is everything.
    The label is drawn with the strokes of [stroke_world]. *)
Example scenario_visualization :
  @draw_instance_predictions stroke_world grey_4x4 [] two_masks [1; 2]
    [9 # 10; 3 # 10]%Q (1 # 2)%Q
  = Ok [[(105, 60, 127); (105, 60, 127); (200, 100, 1); (200, 100, 1)];
        [(0, 0, 0); (0, 0, 0); (0, 0, 0); (0, 0, 0)];
        [(105, 60, 127); (105, 60, 127); (200, 100, 1); (200, 100, 1)];
        [(105, 60, 127); (105, 60, 127); (200, 100, 1); (200, 100, 1)]].
Proof. vm_compute. reflexivity. Qed.

Example scenario_labels :
  @rendered_labels stroke_world grey_4x4 [] two_masks [1; 2]
    [9 # 10; 3 # 10]%Q (1 # 2)%Q
  = [("rice"%string, (0, 1))].
Proof. vm_compute. reflexivity. Qed.

Example scenario_merged_region :
  merged_mask two_masks = replicate 4 (replicate 4 1).
Proof. reflexivity. Qed.

Example scenario_run_inference :
  exists out,
    @run_inference_arrays stroke_world grey_4x4 [] two_masks [1; 2] [9 # 10; 3 # 10]%Q
    = (Ok out, replicate 4 (replicate 4 1)) /\
    at2 out 0 3 = at2 grey_4x4 0 3 /\ at2 out 0 0 = Some (105, 60, 127).
Proof. eexists. split; [vm_compute; reflexivity|]. split; reflexivity. Qed.

Example negative_label_samples :
  @label_text stroke_world (-1) = Ok "egg"%string /\
  @label_text stroke_world (-3) = Ok "background"%string /\
  @label_text stroke_world (-4) = Raise IndexError /\
  @label_text stroke_world 3 = Ok "3"%string /\
  @label_text stroke_world 2 = Ok "egg"%string.
Proof. repeat split. Qed.

(** Two blends that overlap on the middle column of a 1 x 3 image: the
    middle pixel holds the second colour blended over the first blend. *)
Example overlap_blends_in_index_order :
  exists v,
    at2 (as_f64 (blend (blend (U8 grey_1x3) [[true; true; false]] (10, 20, 254))
                       [[false; true; true]] (50, 50, 6))) 0 1 = Some v /\
    v = blend_pixel (blend_pixel (pmap F64.of_Z (200, 100, 1)) (10, 20, 254)) (50, 50, 6) /\
    pmap F64.to_u8 v = (77, 55, 66).
Proof. eexists. split; [reflexivity|]. split; reflexivity. Qed.

(** ** Instances of the statements on the sample data *)

Lemma dot_same_size : same_size white_2x6 dot_masks.
Proof.
  split; [split; [done | by repeat constructor]|]. by repeat constructor.
Qed.


Lemma row_same_size : same_size white_2x6 row_masks.
Proof.
  split; [split; [done | by repeat constructor]|]. by repeat constructor.
Qed.

Lemma dot_u8 : u8_image white_2x6.
Proof. repeat constructor; done. Qed.

(** With the pixels of OpenCV, the one-pixel mask and its label. *)
Lemma dot_drawn_returns :
  @draw_instance_predictions opencv_world white_2x6 [] dot_masks [1]
    [9 # 10]%Q (1 # 2)%Q = Ok dot_drawn.
Proof. vm_compute. reflexivity. Qed.


Lemma row_drawn_returns :
  @draw_instance_predictions opencv_world white_2x6 [] row_masks [1]
    [9 # 10]%Q (1 # 2)%Q = Ok row_drawn.
Proof. vm_compute. reflexivity. Qed.

(** The label of these samples covers column 3 only. *)
Lemma outside_the_stem (calls : list (string * (Z * Z))) r c :
  calls = [("rice"%string, (1, 1))] -> c <> 3%nat ->
  @outside_labels opencv_world white_2x6 calls r c.
Proof.
  intros -> Hc label org Hin. apply list_elem_of_singleton in Hin.
  inversion Hin; subst. vm_compute text_pixels.
  intros Hp. apply list_elem_of_In in Hp. simpl in Hp.
  destruct Hp as [Hp | [Hp | []]]; inversion Hp; lia.
Qed.

(** C1 on a white image of 2 rows and 6 columns with one instance, score
    0.9 and label 1, whose mask is the pixel of row 1, column 1: the pixel of
    row 1, column 3 is outside the mask and is returned black. *)
Lemma label_is_drawn_outside_the_mask_witness :
  @draw_instance_predictions opencv_world white_2x6 [] dot_masks [1]
    [9 # 10]%Q (1 # 2)%Q = Ok dot_drawn
  /\ outside_accepted_masks dot_masks [9 # 10]%Q (1 # 2)%Q 1 3
  /\ at2 white_2x6 1 3 = Some (255, 255, 255)
  /\ at2 dot_drawn 1 3 = Some (0, 0, 0)
  /\ ~ @masks_frame opencv_world white_2x6 [] dot_masks [1] [9 # 10]%Q (1 # 2)%Q.
Proof.
  destruct (@label_is_drawn_outside_the_mask opencv_world white_2x6 [] 2 6 dot_mask
              [1] [9 # 10]%Q (1 # 2)%Q (9 # 10)%Q 1 "rice"%string 1 3)
    as (out & Hout & Houtside & _ & _ & Hframe).
  - exact dot_same_size.
  - reflexivity.
  - by vm_compute.
  - done.
  - reflexivity.
  - reflexivity.
  - lia.
  - lia.
  - vm_compute. apply list_elem_of_further, list_elem_of_here.
  - reflexivity.
  - done.
  - split; [exact dot_drawn_returns|]. split; [exact Houtside|].
    split; [reflexivity|]. split; [reflexivity|]. exact Hframe.
Defined.

(** C2 fails as it is worded: under NumPy 2 the Python float 0.7 is compared
    as the float32 nearest to it, so an instance whose score is that float32,
    which is below 0.7, is blended and labelled. *)
Lemma score_below_threshold_is_blended :
  (score_0_7 < thresh_0_7)%Q
  /\ accepts [score_0_7] thresh_0_7 0 = false
  /\ @draw_instance_predictions opencv_world white_2x6 [] dot_masks [1]
       [score_0_7] (compared_thresh NumPy2 thresh_0_7) = Ok dot_drawn
  /\ @rendered_labels opencv_world white_2x6 [] dot_masks [1]
       [score_0_7] (compared_thresh NumPy2 thresh_0_7) = [("rice"%string, (1, 1))]
  /\ at2 dot_drawn 1 1 = Some (132, 137, 254)
  /\ at2 white_2x6 1 1 = Some (255, 255, 255).
Proof. repeat split; vm_compute; reflexivity. Qed.

(** Under NumPy 2 with the threshold 0.7: the instance whose score is the
    float32 nearest to 0.7 is accepted and blended with the first colour,
    the instance with score 0.3 is skipped, and at 0.9 no more is accepted. *)
Lemma threshold_is_a_hard_cutoff_witness :
  (exists st',
     @iteration opencv_world dot_pair_masks [1; 2] [score_0_7; 3 # 10]%Q
       (compared_thresh NumPy2 thresh_0_7) 0 (Canvas (U8 white_2x6) 0 []) = Ok st'
     /\ draws st' = 1%nat
     /\ (img st' = blend (U8 white_2x6) dot_mask (10, 20, 254) /\ texts st' = []
         \/ exists label,
              img st' = @putText opencv_world (blend (U8 white_2x6) dot_mask (10, 20, 254))
                          label (anchor dot_mask)
              /\ texts st' = [(label, anchor dot_mask)]))
  /\ @iteration opencv_world dot_pair_masks [1; 2] [score_0_7; 3 # 10]%Q
       (compared_thresh NumPy2 thresh_0_7) 1 (Canvas (U8 white_2x6) 0 [])
     = Ok (Canvas (U8 white_2x6) 0 [])
  /\ accepted_set [score_0_7; 3 # 10]%Q (compared_thresh NumPy2 (9 # 10))
     ⊆ accepted_set [score_0_7; 3 # 10]%Q (compared_thresh NumPy2 thresh_0_7)
  /\ (compared_thresh NumPy2 (1 # 2) == 1 # 2)%Q.
Proof.
  destruct (@threshold_is_a_hard_cutoff opencv_world NumPy2 dot_pair_masks [1; 2]
              [score_0_7; 3 # 10]%Q thresh_0_7) as (Hrej & Hacc & _ & Hmono & _ & _).
  destruct (@threshold_is_a_hard_cutoff opencv_world NumPy2 dot_pair_masks [1; 2]
              [score_0_7; 3 # 10]%Q (1 # 2)%Q) as (_ & _ & _ & _ & Hrep & _).
  split; [|split; [|split]].
  - eexists. split; [vm_compute; reflexivity|].
    apply (Hacc 0%nat score_0_7 dot_mask (Canvas (U8 white_2x6) 0 [])).
    + reflexivity.
    + by vm_compute.
    + reflexivity.
    + vm_compute. reflexivity.
  - apply (Hrej 1%nat (3 # 10)%Q); [reflexivity | by vm_compute].
  - apply Hmono. by vm_compute.
  - apply Hrep. right. exists 1, (-1). split; [done|]. split; [done|]. reflexivity.
Defined.



(** C4 fails as it is worded: the last pixel of the mask of the only
    instance lies under the label, and is returned black, not the truncation
    of the blend of white with the colour. *)
Lemma label_pixel_is_not_the_blend :
  @draw_instance_predictions opencv_world white_2x6 [] row_masks [1]
    [9 # 10]%Q (1 # 2)%Q = Ok row_drawn
  /\ mask_at row_mask 1 3 = true
  /\ at2 white_2x6 1 3 = Some (255, 255, 255)
  /\ pmap F64.to_u8
       (@sequential_blend opencv_world row_masks [9 # 10]%Q (1 # 2)%Q 1 3 [0%nat] 0
          (pmap F64.of_Z (255, 255, 255)))
     = (132, 137, 254)
  /\ at2 row_drawn 1 3 = Some (0, 0, 0)
  /\ ~ @returns_truncated_blend opencv_world white_2x6 [] row_masks [1]
         [9 # 10]%Q (1 # 2)%Q.
Proof.
  split; [exact row_drawn_returns|]. split; [reflexivity|]. split; [reflexivity|].
  split; [vm_compute; reflexivity|]. split; [reflexivity|].
  intros Htrunc.
  specialize (Htrunc row_drawn row_drawn_returns 1%nat 3%nat (255, 255, 255) eq_refl).
  vm_compute in Htrunc. done.
Qed.

(** The first pixel of that mask is outside the label: the blend sets it
    to the blend of white with the first colour, and it is returned as the
    truncation of that value, which is the integer mean rounded down in every
    channel. *)
Lemma blend_is_sequential_half_and_half_witness :
  at2 (as_f64 (blend (U8 white_2x6) row_mask (10, 20, 254))) 1 0
  = Some (blend_pixel (pmap F64.of_Z (255, 255, 255)) (10, 20, 254))
  /\ at2 row_drawn 1 0
  = Some (pmap F64.to_u8
            (@sequential_blend opencv_world row_masks [9 # 10]%Q (1 # 2)%Q 1 0
               [0%nat] 0 (pmap F64.of_Z (255, 255, 255))))
  /\ at2 row_drawn 1 0 = Some ((255 + 10) / 2, (255 + 20) / 2, (255 + 254) / 2)
  /\ F64.to_u8 (blend_channel (F64.of_Z 255) 10) = (255 + 10) / 2.
Proof.
  destruct (@blend_is_sequential_half_and_half opencv_world row_masks [1]
              [9 # 10]%Q (1 # 2)%Q) as (Hblend & _ & _ & _ & Hfinal & Hmean).
  split; [|split; [|split]].
  - apply (Hblend 2%nat 6%nat (U8 white_2x6) row_mask (10, 20, 254) 1%nat 0%nat
             (pmap F64.of_Z (255, 255, 255)) true).
    + split; [done | by repeat constructor].
    + split; [done | by repeat constructor].
    + reflexivity.
    + reflexivity.
  - apply (Hfinal white_2x6 [] row_drawn 1%nat 0%nat (255, 255, 255)).
    + exact row_same_size.
    + exact dot_u8.
    + exact row_drawn_returns.
    + reflexivity.
    + apply outside_the_stem; [by vm_compute | lia].
  - reflexivity.
  - apply Hmean; unfold u8; lia.
Defined.


Lemma label_text_lookup_witness :
  (exists name, (@CLASS_NAMES stroke_world) !! Z.to_nat 1 = Some name /\
                @label_text stroke_world 1 = Ok name)
  /\ @label_text stroke_world 7 = Ok (pretty 7).
Proof.
  split.
  - apply (proj1 (@label_text_lookup stroke_world 1)). cbn. lia.
  - apply (proj1 (proj2 (@label_text_lookup stroke_world 7))). cbn. lia.
Defined.

Lemma anchor_is_floored_centroid_witness :
  (exists r c, mask_at left_mask r c = true) /\
  anchor left_mask = (0, 1) /\ 0 <= 1 <= 3 /\ 0 <= 0 <= 1.
Proof.
  assert (exists r c, mask_at left_mask r c = true) as Hne
    by (exists 0%nat, 0%nat; reflexivity).
  assert (anchor left_mask = (0, 1)) as Hxy by reflexivity.
  split; [exact Hne|]. split; [exact Hxy|].
  destruct (@anchor_is_floored_centroid stroke_world left_mask) as (_ & Hbox & _ & _).
  destruct (Hbox Hne 0 1 Hxy) as (_ & _ & Hrows & Hcols).
  split.
  - apply Hrows. intros r c Hrc. apply mask_at_true, elem_of_np_where in Hrc.
    unfold at2 in Hrc. destruct r as [|[|[|[|r]]]]; cbn in Hrc; try done; lia.
  - apply Hcols. intros r c Hrc. apply mask_at_true, elem_of_np_where in Hrc.
    unfold at2 in Hrc.
    destruct r as [|[|[|[|r]]]]; cbn in Hrc; try done;
      destruct c as [|[|[|[|c]]]]; cbn in Hrc; try done; lia.
Defined.

Lemma negative_label_indexes_from_the_end_witness :
  (exists name,
     (@CLASS_NAMES stroke_world) !! Z.to_nat (3 + -1) = Some name /\
     @label_text stroke_world (-1) = Ok name)
  /\ @label_text stroke_world (-4) = Raise IndexError.
Proof.
  destruct (@negative_label_indexes_from_the_end stroke_world (-1)) as (_ & Hneg & _).
  destruct (@negative_label_indexes_from_the_end stroke_world (-4)) as (_ & _ & Hlow & _).
  split.
  - apply Hneg; cbn; lia.
  - apply Hlow. cbn. lia.
Defined.

(** * Further properties *)

(** ** Whitespace *)

Lemma forallb_reverse {A} (f : A -> bool) (l : list A) :
  forallb f (reverse l) = forallb f l.
Proof.
  destruct (forallb f l) eqn:Hl.
  - apply forallb_forall. intros x Hx. rewrite forallb_forall in Hl. apply Hl.
    apply list_elem_of_In. apply list_elem_of_In in Hx. by apply elem_of_reverse.
  - destruct (forallb f (reverse l)) eqn:Hr; [|done].
    rewrite <- Hl. symmetry. apply forallb_forall. intros x Hx.
    rewrite forallb_forall in Hr. apply Hr.
    apply list_elem_of_In. apply list_elem_of_In in Hx. by apply elem_of_reverse.
Qed.

Lemma lstrip_app_spaces (w s : list ascii) :
  forallb isspace w = true -> lstrip (w ++ s) = lstrip s.
Proof.
  induction w as [|c w IH]; [done|]. cbn. intros Hw.
  apply andb_true_iff in Hw as [-> Hw]. by apply IH.
Qed.

Lemma lstrip_head (s : list ascii) c :
  head s = Some c -> isspace c = false -> lstrip s = s.
Proof. destruct s as [|x s]; [done|]. cbn. intros [= ->] ->. done. Qed.

Lemma lstrip_split (s : list ascii) :
  exists w, s = w ++ lstrip s /\ forallb isspace w = true.
Proof.
  induction s as [|c s (w & Hs & Hw)]; [by exists []|]. cbn.
  destruct (isspace c) eqn:Hc.
  - exists (c :: w). cbn. rewrite Hc, Hw. split; [by f_equal|done].
  - by exists [].
Qed.

Lemma lstrip_result (s : list ascii) :
  lstrip s = [] \/ exists c, head (lstrip s) = Some c /\ isspace c = false.
Proof.
  induction s as [|c s IH]; [by left|]. cbn.
  destruct (isspace c) eqn:Hc; [done|]. right. by exists c.
Qed.

Lemma lstrip_spaces (w : list ascii) : forallb isspace w = true -> lstrip w = [].
Proof.
  intros Hw. rewrite <- (app_nil_r w). by rewrite lstrip_app_spaces.
Qed.

Lemma lstrip_nil_spaces (s : list ascii) : lstrip s = [] -> forallb isspace s = true.
Proof.
  intros Hs. destruct (lstrip_split s) as (w & Heq & Hw).
  rewrite Hs, app_nil_r in Heq. by subst.
Qed.

Lemma rstrip_app_spaces (s w : list ascii) :
  forallb isspace w = true -> rstrip (s ++ w) = rstrip s.
Proof.
  intros Hw. unfold rstrip. rewrite reverse_app, lstrip_app_spaces; [done|].
  by rewrite forallb_reverse.
Qed.

Lemma rstrip_last (s : list ascii) c :
  last s = Some c -> isspace c = false -> rstrip s = s.
Proof.
  intros Hlast Hc. unfold rstrip.
  rewrite (lstrip_head _ c); [apply reverse_involutive | by rewrite head_reverse | done].
Qed.

Lemma rstrip_split (s : list ascii) :
  exists w, s = rstrip s ++ w /\ forallb isspace w = true.
Proof.
  destruct (lstrip_split (reverse s)) as (w & Hs & Hw).
  exists (reverse w). split; [|by rewrite forallb_reverse].
  unfold rstrip. rewrite <- reverse_app, <- Hs. by rewrite reverse_involutive.
Qed.

Lemma rstrip_result (s : list ascii) :
  rstrip s = [] \/ exists c, last (rstrip s) = Some c /\ isspace c = false.
Proof.
  unfold rstrip. destruct (lstrip_result (reverse s)) as [-> | (c & Hc & Hsp)].
  - by left.
  - right. exists c. by rewrite last_reverse.
Qed.

Lemma span_word_app (word r : list ascii) :
  forallb (fun c => negb (isspace c)) word = true ->
  (r = [] \/ exists c, head r = Some c /\ isspace c = true) ->
  span_word (word ++ r) = (word, r).
Proof.
  intros Hword Hr. induction word as [|c word IH]; cbn.
  - destruct Hr as [-> | (c & Hc & Hsp)]; [done|].
    destruct r as [|x r]; [done|]. cbn in Hc. inversion Hc; subst. cbn. by rewrite Hsp.
  - cbn in Hword. apply andb_true_iff in Hword as [Hc Hword].
    apply negb_true_iff in Hc. rewrite Hc, (IH Hword). done.
Qed.

Lemma span_word_split (s w r : list ascii) :
  span_word s = (w, r) ->
  s = w ++ r /\ forallb (fun c => negb (isspace c)) w = true /\
  (r = [] \/ exists c, head r = Some c /\ isspace c = true).
Proof.
  revert w r. induction s as [|c s IH]; intros w r; cbn.
  - intros [= <- <-]. split; [done|]. split; [done|]. by left.
  - destruct (isspace c) eqn:Hc.
    + intros [= <- <-]. split; [done|]. split; [done|]. right. by exists c.
    + destruct (span_word s) as [w' r'] eqn:Hspan. intros [= <- <-].
      destruct (IH w' r' eq_refl) as (-> & Hw & Hr).
      split; [done|]. split; [|done]. cbn. by rewrite Hc, Hw.
Qed.

(** ** One line of the category file *)

Lemma parse_line_fields line name : has_fields line name -> parse_line line = Loaded name.
Proof.
  intros (w1 & word & w2 & w3 & -> & Hw1 & Hword & Hns & Hw2 & Hsp2
          & (c1 & Hhead & Hc1) & (c2 & Hlast & Hc2) & Hw3).
  assert (name <> []) as Hname by (intros ->; done).
  destruct word as [|a word]; [done|]. cbn in Hns.
  apply andb_true_iff in Hns as [Ha Hns]. apply negb_true_iff in Ha.
  assert (strip (w1 ++ (a :: word) ++ w2 ++ name ++ w3) = (a :: word) ++ w2 ++ name)
    as Hstrip.
  { unfold strip. rewrite lstrip_app_spaces by done.
    rewrite (lstrip_head _ a) by done.
    replace ((a :: word) ++ w2 ++ name ++ w3) with (((a :: word) ++ w2 ++ name) ++ w3)
      by (by rewrite <- !app_assoc).
    rewrite rstrip_app_spaces by done.
    apply (rstrip_last _ c2); [|done].
    rewrite !app_assoc. rewrite last_app, Hlast. done. }
  unfold parse_line. rewrite Hstrip. unfold split_maxsplit1.
  rewrite (lstrip_head _ a) by done. cbn [app].
  change (a :: word ++ w2 ++ name) with ((a :: word) ++ w2 ++ name).
  rewrite span_word_app.
  - rewrite lstrip_app_spaces by done. rewrite (lstrip_head _ c1) by done.
    destruct name; done.
  - cbn. by rewrite Ha, Hns.
  - right. destruct w2 as [|b w2]; [done|]. cbn in Hsp2.
    apply andb_true_iff in Hsp2 as [Hb _]. by exists b.
Qed.

Lemma parse_line_Loaded line name : parse_line line = Loaded name -> has_fields line name.
Proof.
  unfold parse_line, split_maxsplit1. intros Hparse.
  destruct (lstrip_split line) as (w1 & Hline & Hw1).
  destruct (rstrip_split (lstrip line)) as (w3 & Hmid & Hw3).
  fold (strip line) in Hmid.
  destruct (lstrip_split (strip line)) as (w0 & Hs & Hw0).
  destruct (lstrip (strip line)) as [|c s'] eqn:Hls; [done|].
  destruct (span_word (c :: s')) as [w r] eqn:Hspan.
  destruct (span_word_split _ _ _ Hspan) as (Hcs & Hw & Hr).
  destruct (lstrip_split r) as (w2 & Hr2 & Hw2).
  destruct (lstrip_result r) as [Hnil | (c1 & Hhead & Hc1)].
  { rewrite Hnil in Hparse. done. }
  destruct (lstrip r) as [|x rest] eqn:Hrest; [done|].
  inversion Hparse; subst name. clear Hparse.
  assert (w <> []) as Hwne.
  { intros ->. cbn in Hspan.
    destruct (lstrip_result (strip line)) as [Hn | (c0 & Hh0 & Hc0)].
    - by rewrite Hls in Hn.
    - rewrite Hls in Hh0. cbn in Hh0. inversion Hh0; subst c0.
      rewrite Hc0 in Hspan. destruct (span_word s'); done. }
  assert (w2 <> []) as Hw2ne.
  { intros ->. cbn in Hr2. destruct Hr as [-> | (c2 & Hh2 & Hc2)]; [done|].
    rewrite Hr2 in Hh2. cbn in Hh2. inversion Hh2; subst c2.
    cbn in Hhead. inversion Hhead; subst c1. congruence. }
  exists (w1 ++ w0), w, w2, w3. split.
  { rewrite Hline at 1. rewrite Hmid at 1. rewrite Hs at 1.
    rewrite Hcs, Hr2. by rewrite <- !app_assoc. }
  split; [by rewrite forallb_app, Hw1, Hw0|].
  split; [done|]. split; [done|]. split; [done|]. split; [done|].
  split; [by exists c1|]. split; [|done].
  destruct (rstrip_result (lstrip line)) as [Hn | (c2 & Hlast & Hc2)].
  { fold (strip line) in Hn. rewrite Hn in Hls. done. }
  exists c2. split; [|done]. fold (strip line) in Hlast.
  rewrite Hs, Hcs, Hr2 in Hlast. rewrite !last_app in Hlast.
  destruct (last (x :: rest)) as [y|] eqn:Hl; [done | by apply last_None in Hl].
Qed.

(** X1: a line gives a name exactly when it has two fields: optional
    whitespace, a word (the id, which is not read), whitespace, and a rest
    that becomes the name with the whitespace around it removed and the
    whitespace inside it kept. *)
Theorem parse_line_iff_fields line name :
  parse_line line = Loaded name <-> has_fields line name.
Proof. split; [apply parse_line_Loaded | apply parse_line_fields]. Qed.

Lemma parse_line_blank line : parse_line line = ValueError 0 <-> blank line.
Proof.
  unfold blank. split.
  - unfold parse_line, split_maxsplit1. intros Hparse.
    destruct (lstrip (strip line)) as [|c s'] eqn:Hls.
    + apply lstrip_nil_spaces in Hls.
      destruct (rstrip_result (lstrip line)) as [Hn | (c & Hlast & Hc)].
      * destruct (rstrip_split (lstrip line)) as (w3 & Hmid & Hw3).
        destruct (lstrip_split line) as (w1 & Hline & Hw1).
        rewrite Hn in Hmid. cbn in Hmid. rewrite Hline, Hmid.
        by rewrite forallb_app, Hw1, Hw3.
      * fold (strip line) in Hlast. rewrite forallb_forall in Hls.
        assert (isspace c = true) as Hsp; [|congruence].
        apply Hls, list_elem_of_In. by eapply last_Some_elem_of.
    + destruct (span_word (c :: s')) as [w r]. destruct (lstrip r); done.
  - intros Hblank. unfold parse_line, split_maxsplit1, strip.
    rewrite (lstrip_spaces line Hblank). done.
Qed.

Lemma parse_line_single_word line : parse_line line = ValueError 1 <-> single_word line.
Proof.
  split.
  - unfold parse_line, split_maxsplit1. intros Hparse.
    destruct (lstrip_split line) as (w1 & Hline & Hw1).
    destruct (rstrip_split (lstrip line)) as (w3 & Hmid & Hw3).
    fold (strip line) in Hmid.
    destruct (lstrip_split (strip line)) as (w0 & Hs & Hw0).
    destruct (lstrip (strip line)) as [|c s'] eqn:Hls; [done|].
    destruct (span_word (c :: s')) as [w r] eqn:Hspan.
    destruct (span_word_split _ _ _ Hspan) as (Hcs & Hw & Hr).
    destruct (lstrip r) as [|x rest] eqn:Hrest; [|done].
    apply lstrip_nil_spaces in Hrest.
    assert (w <> []) as Hwne.
    { intros ->. cbn in Hspan.
      destruct (lstrip_result (strip line)) as [Hn | (c0 & Hh0 & Hc0)].
      - by rewrite Hls in Hn.
      - rewrite Hls in Hh0. cbn in Hh0. inversion Hh0; subst c0.
        rewrite Hc0 in Hspan. destruct (span_word s'); done. }
    exists (w1 ++ w0), w, (r ++ w3). split.
    { rewrite Hline at 1. rewrite Hmid at 1. rewrite Hs at 1. rewrite Hcs.
      by rewrite <- !app_assoc. }
    split; [by rewrite forallb_app, Hw1, Hw0|].
    split; [done|]. split; [done|]. by rewrite forallb_app, Hrest, Hw3.
  - intros (w1 & word & w3 & -> & Hw1 & Hword & Hns & Hw3).
    destruct word as [|a word]; [done|]. cbn in Hns.
    apply andb_true_iff in Hns as [Ha Hns]. apply negb_true_iff in Ha.
    assert (exists c, last (a :: word) = Some c /\ isspace c = false) as (c & Hlast & Hc).
    { destruct (last (a :: word)) as [c|] eqn:Hl; [|by apply last_None in Hl].
      exists c. split; [done|]. apply last_Some_elem_of in Hl.
      apply elem_of_cons in Hl as [-> | Hin]; [done|].
      rewrite forallb_forall in Hns. apply negb_true_iff, Hns.
      by apply list_elem_of_In. }
    assert (strip (w1 ++ (a :: word) ++ w3) = a :: word) as Hstrip.
    { unfold strip. rewrite lstrip_app_spaces by done.
      rewrite (lstrip_head _ a) by done. rewrite rstrip_app_spaces by done.
      by apply (rstrip_last _ c). }
    unfold parse_line. rewrite Hstrip. unfold split_maxsplit1.
    rewrite (lstrip_head _ a) by done.
    rewrite <- (app_nil_r (a :: word)).
    rewrite span_word_app; [done | by cbn; rewrite Ha, Hns | by left].
Qed.

Lemma parse_line_got line got : parse_line line = ValueError got -> got = 0%nat \/ got = 1%nat.
Proof.
  unfold parse_line, split_maxsplit1.
  destruct (lstrip (strip line)) as [|c s']; [intros [= <-]; by left|].
  destruct (span_word (c :: s')) as [w r].
  destruct (lstrip r); [intros [= <-]; by right | done].
Qed.

Lemma parse_line_ValueError line got :
  parse_line line = ValueError got -> blank line \/ single_word line.
Proof.
  intros Hparse. destruct (parse_line_got _ _ Hparse) as [-> | ->].
  - left. by apply parse_line_blank.
  - right. by apply parse_line_single_word.
Qed.

(** ** The whole file *)

Lemma load_loop_Loaded lines : forall acc names,
  load_loop lines acc = Loaded names <->
  exists new, names = acc ++ new /\ Forall2 has_fields lines new.
Proof.
  induction lines as [|line lines IH]; intros acc names; cbn.
  - split.
    + intros [= <-]. exists []. by rewrite app_nil_r.
    + intros (new & -> & Hnew). inversion Hnew. by rewrite app_nil_r.
  - destruct (parse_line line) as [name|got] eqn:Hparse.
    + rewrite IH. split.
      * intros (new & -> & Hnew). exists (name :: new).
        split; [by rewrite <- app_assoc|].
        constructor; [by apply parse_line_Loaded | done].
      * intros (new & -> & Hnew). inversion Hnew as [|? name' ? new' Hf Hrest]; subst.
        apply parse_line_fields in Hf. rewrite Hparse in Hf. inversion Hf; subst.
        exists new'. by rewrite <- app_assoc.
    + split; [done|]. intros (new & -> & Hnew).
      inversion Hnew as [|? name' ? new' Hf Hrest]; subst.
      apply parse_line_fields in Hf. congruence.
Qed.

Lemma load_loop_ValueError lines : forall acc,
  (exists got, load_loop lines acc = ValueError got) <->
  exists line, line ∈ lines /\ (blank line \/ single_word line).
Proof.
  induction lines as [|line lines IH]; intros acc; cbn.
  - split; [by intros [? ?] | intros (line & Hin & _); by apply elem_of_nil in Hin].
  - destruct (parse_line line) as [name|got] eqn:Hparse.
    + rewrite IH. split.
      * intros (l & Hin & Hbad). exists l. split; [by apply list_elem_of_further | done].
      * intros (l & Hin & Hbad). apply elem_of_cons in Hin as [-> | Hin].
        -- exfalso. destruct Hbad as [Hb | Hs].
           ++ apply parse_line_blank in Hb. congruence.
           ++ apply parse_line_single_word in Hs. congruence.
        -- by exists l.
    + split; [|by exists got]. intros _. exists line.
      split; [apply list_elem_of_here | by eapply parse_line_ValueError].
Qed.

(** X2: the catalog is positional.  The loader returns [names] exactly when
    the file has as many lines as [names] has entries and line number [k]
    has two fields, the second of which is entry [k]; the first field, the
    id, plays no part. *)
Theorem load_class_names_positional lines names :
  load_class_names lines = Loaded names <-> Forall2 has_fields lines names.
Proof.
  unfold load_class_names. rewrite load_loop_Loaded. split.
  - by intros (new & -> & Hnew).
  - intros Hnew. by exists names.
Qed.

(** X3: the loader raises [ValueError] exactly when some line of the file,
    wherever it stands, is blank or holds a single word; no catalog is
    returned then. *)
Theorem load_class_names_raises_iff lines :
  (exists got, load_class_names lines = ValueError got) <->
  exists line, line ∈ lines /\ (blank line \/ single_word line).
Proof. unfold load_class_names. apply load_loop_ValueError. Qed.

Section CatalogLabels.
Context `{Externals}.

(** X4: with the catalog that the loader builds from [lines], the label id
    [l] of an instance displays the name on line number [l] of the file
    (counted from 0), whatever id that line carries, and an id from the
    number of lines on displays its decimal string. *)
Theorem label_text_of_loaded_catalog lines names l :
  load_class_names lines = Loaded names ->
  CLASS_NAMES = string_of_list_ascii <$> names ->
  (forall line, 0 <= l -> lines !! Z.to_nat l = Some line ->
     exists name, has_fields line name /\
                  label_text l = Ok (string_of_list_ascii name))
  /\ (Z.of_nat (length lines) <= l -> label_text l = Ok (pretty l)).
Proof.
  intros Hload Hcat. unfold load_class_names in Hload.
  apply load_loop_Loaded in Hload as (new & -> & Hload). cbn [app] in *.
  pose proof (Forall2_length _ _ _ Hload) as Hlen.
  assert (length CLASS_NAMES = length lines) as Hn.
  { by rewrite Hcat, length_fmap. }
  split.
  - intros line Hl Hline.
    destruct (Forall2_lookup_l _ _ _ _ _ Hload Hline) as (name & Hname & Hfields).
    exists name. split; [done|].
    destruct (label_text_catalog l) as (entry & Hentry & Htext).
    { apply lookup_lt_Some in Hline. lia. }
    rewrite Htext. rewrite Hcat, list_lookup_fmap, Hname in Hentry.
    cbn in Hentry. by inversion Hentry.
  - intros Hge. apply label_text_fallback. lia.
Qed.

End CatalogLabels.

(** The sample file: the name on line 1 is displayed for label id 1,
    although the line carries the id 7. *)
Lemma label_text_of_loaded_catalog_witness :
  load_class_names sample_lines = Loaded sample_names /\
  (exists name,
     has_fields (list_ascii_of_string "7   fried rice  " ++ [newline]) name /\
     @label_text loaded_world 1 = Ok (string_of_list_ascii name)) /\
  @label_text loaded_world 3 = Ok (pretty 3).
Proof.
  assert (load_class_names sample_lines = Loaded sample_names) as Hload
    by reflexivity.
  destruct (@label_text_of_loaded_catalog loaded_world sample_lines _ 1 Hload eq_refl)
    as [Hline _].
  destruct (@label_text_of_loaded_catalog loaded_world sample_lines _ 3 Hload eq_refl)
    as [_ Hfallback].
  split; [exact Hload|]. split.
  - apply Hline; [lia | reflexivity].
  - apply Hfallback. cbn. lia.
Defined.

(** ** Paths of the artifacts *)

Lemma rfind_spec (c : ascii) (s : list ascii) :
  (rfind c s = (-1) /\ c ∉ s) \/
  (exists a b, s = (a ++ c :: b) /\ (c ∉ b) /\ rfind c s = Z.of_nat (length a)).
Proof.
  induction s as [|x s IH]; cbn.
  - left. split; [done | apply not_elem_of_nil].
  - destruct IH as [[Hr Hnot] | (a & b & -> & Hb & Hr)].
    + rewrite Hr. cbn. destruct (Ascii.eqb x c) eqn:Hx.
      * apply Ascii.eqb_eq in Hx as ->. right. by exists [], s.
      * left. split; [done|]. apply Ascii.eqb_neq in Hx.
        intros Hin. apply elem_of_cons in Hin as [-> | Hin]; done.
    + rewrite Hr. rewrite (proj2 (Z.leb_le _ _)) by lia.
      right. exists (x :: a), b. split; [done|]. split; [done|]. cbn [length]. lia.
Qed.

Lemma rfind_last (c : ascii) (a b : list ascii) :
  c ∉ b -> rfind c (a ++ c :: b) = Z.of_nat (length a).
Proof.
  intros Hb. destruct (rfind_spec c (a ++ c :: b)) as [[_ Hnot] | (a' & b' & Heq & Hb' & ->)].
  - exfalso. apply Hnot. apply elem_of_app. right. apply list_elem_of_here.
  - f_equal.
    assert (length b = length b') as Hlen.
    { destruct (decide (length a < length a')%nat) as [Hlt|Hge].
      - exfalso. apply Hb.
        assert ((a ++ c :: b) !! length a' = Some c) as Hc
          by (rewrite Heq; by rewrite list_lookup_middle).
        rewrite lookup_app_r in Hc by lia.
        destruct (length a' - length a)%nat as [|k] eqn:Hk; [lia|].
        cbn in Hc. by eapply list_elem_of_lookup_2.
      - destruct (decide (length a' < length a)%nat) as [Hlt|Hge'].
        + exfalso. apply Hb'.
          assert ((a' ++ c :: b') !! length a = Some c) as Hc
            by (rewrite <- Heq; by rewrite list_lookup_middle).
          rewrite lookup_app_r in Hc by lia.
          destruct (length a - length a')%nat as [|k] eqn:Hk; [lia|].
          cbn in Hc. by eapply list_elem_of_lookup_2.
        + apply (f_equal length) in Heq. rewrite !length_app in Heq. cbn in Heq. lia. }
    apply (f_equal length) in Heq. rewrite !length_app in Heq. cbn in Heq. lia.
Qed.

Lemma rfind_absent (c : ascii) (s : list ascii) : c ∉ s -> rfind c s = -1.
Proof.
  intros Hs. destruct (rfind_spec c s) as [[Hr _] | (a & b & -> & _ & _)]; [done|].
  exfalso. apply Hs. apply elem_of_app. right. apply list_elem_of_here.
Qed.

Lemma basename_spec (p : list ascii) :
  ("/"%char ∉ basename p) /\
  exists d, p = d ++ basename p /\ (d = [] \/ last d = Some "/"%char).
Proof.
  unfold basename.
  destruct (rfind_spec "/" p) as [[Hr Hnot] | (a & b & -> & Hb & Hr)]; rewrite Hr.
  - cbn. split; [done|]. exists []. split; [done | by left].
  - replace (Z.to_nat (Z.of_nat (length a) + 1)) with (length (a ++ ["/"%char]))
      by (rewrite length_app; cbn; lia).
    replace (a ++ "/"%char :: b) with ((a ++ ["/"%char]) ++ b)
      by (by rewrite <- app_assoc).
    rewrite drop_app_length. split; [done|].
    exists (a ++ ["/"%char]). split; [done|]. right. apply last_snoc.
Qed.

Lemma basename_dir (d q : list ascii) :
  (d = [] \/ last d = Some "/"%char) -> "/"%char ∉ q -> basename (d ++ q) = q.
Proof.
  intros Hd Hq. unfold basename. destruct Hd as [-> | Hlast].
  - cbn. by rewrite (rfind_absent _ _ Hq).
  - apply last_Some in Hlast as [a ->]. rewrite <- app_assoc. cbn.
    rewrite (rfind_last _ _ _ Hq).
    replace (Z.to_nat (Z.of_nat (length a) + 1)) with (length (a ++ ["/"%char]))
      by (rewrite length_app; cbn; lia).
    replace (a ++ "/"%char :: q) with ((a ++ ["/"%char]) ++ q)
      by (by rewrite <- app_assoc).
    apply drop_app_length.
Qed.

Lemma splitext_root_prefix (q : list ascii) : (splitext q).1 `prefix_of` q.
Proof.
  unfold splitext. destruct (rfind "/" q <? rfind "." q); [|reflexivity].
  destruct (forallb _ _); [reflexivity|]. cbn. apply prefix_take.
Qed.

Lemma splitext_join (q : list ascii) : (splitext q).1 ++ (splitext q).2 = q.
Proof.
  unfold splitext. destruct (rfind "/" q <? rfind "." q); [|apply app_nil_r].
  destruct (forallb _ _); [apply app_nil_r|]. cbn. apply take_drop.
Qed.

Lemma splitext_stem (stem ext : list ascii) :
  "/"%char ∉ stem -> "/"%char ∉ ext -> "."%char ∉ ext ->
  forallb (fun x => Ascii.eqb x ".") stem = false ->
  splitext (stem ++ "."%char :: ext) = (stem, "."%char :: ext).
Proof.
  intros Hs He Hdot Hstem. unfold splitext.
  rewrite (rfind_last _ _ _ Hdot). rewrite rfind_absent.
  2:{ intros Hin. apply elem_of_app in Hin as [Hin | Hin]; [done|].
      apply elem_of_cons in Hin as [Heq | Hin]; done. }
  rewrite (proj2 (Z.ltb_lt _ _)) by lia.
  rewrite Nat2Z.id. change (Z.to_nat (-1 + 1)) with 0%nat.
  rewrite drop_0, take_app_length, Hstem.
  by rewrite drop_app_length.
Qed.

Lemma path_join_output (file : list ascii) :
  (forall c, head file = Some c -> c <> "/"%char) ->
  path_join OUTPUT_DIR file = OUTPUT_DIR ++ "/"%char :: file.
Proof.
  intros Hhead. unfold path_join.
  destruct file as [|c file]; [done|].
  destruct (decide (c = "/"%char)) as [-> | Hc]; [by specialize (Hhead _ eq_refl)|].
  destruct c as [[] [] [] [] [] [] [] []]; done.
Qed.

Lemma artifact_path_spec (image_path suffix : list ascii) :
  (forall c, head suffix = Some c -> c <> "/"%char) -> suffix <> [] ->
  exists name,
    name = (splitext (basename image_path)).1 /\
    ("/"%char ∉ name) /\ name `prefix_of` basename image_path /\
    artifact_path image_path suffix = OUTPUT_DIR ++ "/"%char :: name ++ suffix.
Proof.
  intros Hsuffix Hne. exists (splitext (basename image_path)).1.
  destruct (basename_spec image_path) as [Hbase _].
  pose proof (splitext_root_prefix (basename image_path)) as Hpre.
  assert ("/"%char ∉ (splitext (basename image_path)).1) as Hname.
  { intros Hin. apply Hbase. destruct Hpre as [k Hk]. rewrite Hk.
    apply elem_of_app. by left. }
  split; [done|]. split; [done|]. split; [done|].
  unfold artifact_path. destruct (splitext (basename image_path)) as [name ext]. cbn in *.
  apply path_join_output. intros c Hc.
  destruct name as [|x name].
  - cbn in Hc. by apply Hsuffix.
  - cbn in Hc. inversion Hc; subst. intros ->. apply Hname, list_elem_of_here.
Qed.

(** X5: whatever the image path, the three artifacts are written directly
    into the output directory: each path is the directory, one separator,
    and a file name without separator made of a common stem, which is a
    prefix of the last component of the image path, and the fixed suffix. *)
Theorem artifacts_stay_in_output_dir (image_path : list ascii) :
  exists name,
    ("/"%char ∉ name) /\ name `prefix_of` basename image_path /\
    resized_input_path image_path
      = OUTPUT_DIR ++ "/"%char :: name ++ list_ascii_of_string "_resized.jpg" /\
    output_path image_path
      = OUTPUT_DIR ++ "/"%char :: name ++ list_ascii_of_string "_masked.jpg" /\
    inpainted_output_path image_path
      = OUTPUT_DIR ++ "/"%char :: name ++ list_ascii_of_string "_inpainted.jpg".
Proof.
  unfold resized_input_path, output_path, inpainted_output_path.
  destruct (artifact_path_spec image_path (list_ascii_of_string "_resized.jpg"))
    as (name & Hname & Hsep & Hpre & Hresized); [by intros c [= <-] | done |].
  destruct (artifact_path_spec image_path (list_ascii_of_string "_masked.jpg"))
    as (name' & Hname' & _ & _ & Hmasked); [by intros c [= <-] | done |].
  destruct (artifact_path_spec image_path (list_ascii_of_string "_inpainted.jpg"))
    as (name'' & Hname'' & _ & _ & Hinpainted); [by intros c [= <-] | done |].
  subst name' name''. rewrite <- Hname in Hmasked, Hinpainted.
  exists name. by repeat split.
Qed.

Lemma splitext_ext_head (q : list ascii) :
  (splitext q).2 = [] \/ head (splitext q).2 = Some "."%char.
Proof.
  unfold splitext. destruct (rfind "/" q <? rfind "." q) eqn:Hlt; [|by left].
  destruct (forallb _ _); [by left|]. right. cbn.
  destruct (rfind_spec "." q) as [[Hr _] | (a & b' & -> & _ & Hr)].
  - rewrite Hr in Hlt. apply Z.ltb_lt in Hlt.
    destruct (rfind_spec "/" q) as [[Hs _] | (a & b' & _ & _ & Hs)]; lia.
  - rewrite Hr, Nat2Z.id. by rewrite drop_app_length.
Qed.

Lemma artifact_name_not_input (image_path suffix : list ascii) c :
  head suffix = Some c -> c <> "/"%char -> c <> "."%char -> ("/"%char ∉ suffix) ->
  basename (artifact_path image_path suffix) <> basename image_path.
Proof.
  intros Hhead Hsep Hdot Hsuffix Heq.
  destruct (artifact_path_spec image_path suffix) as (name & Hname & Hnsep & _ & Hpath).
  { intros c' Hc'. rewrite Hhead in Hc'. by inversion Hc'; subst. }
  { intros ->. done. }
  assert (basename image_path = name ++ suffix) as Hbase.
  { rewrite <- Heq. rewrite Hpath.
    replace (OUTPUT_DIR ++ "/"%char :: name ++ suffix)
      with ((OUTPUT_DIR ++ ["/"%char]) ++ name ++ suffix) by (by rewrite <- app_assoc).
    apply basename_dir; [right; apply last_snoc|].
    intros Hin. apply elem_of_app in Hin as [Hin | Hin]; done. }
  pose proof (splitext_join (basename image_path)) as Hjoin.
  rewrite <- Hname in Hjoin. rewrite Hbase in Hjoin at 2.
  apply app_inv_head in Hjoin.
  destruct (splitext_ext_head (basename image_path)) as [Hnil | Hext].
  - rewrite Hnil in Hjoin. by subst.
  - rewrite Hjoin, Hhead in Hext. by inversion Hext.
Qed.

(** X6: no artifact of a run overwrites another one or the image that was
    read: the three artifact paths differ from each other, and the file name
    of each differs from the file name of the image, whatever the image path
    is. *)
Theorem artifacts_overwrite_nothing (image_path : list ascii) :
  resized_input_path image_path <> output_path image_path /\
  resized_input_path image_path <> inpainted_output_path image_path /\
  output_path image_path <> inpainted_output_path image_path /\
  basename (resized_input_path image_path) <> basename image_path /\
  basename (output_path image_path) <> basename image_path /\
  basename (inpainted_output_path image_path) <> basename image_path.
Proof.
  assert (forall s, "/"%char ∉ list_ascii_of_string s <->
                    ~ In "/"%char (list_ascii_of_string s)) as Hin.
  { intros s. by rewrite list_elem_of_In. }
  split; [|split; [|split; [|split; [|split]]]];
    try (apply (artifact_name_not_input _ _ "_"%char);
         [reflexivity | done | done | apply Hin; cbn; intuition congruence]).
  all: unfold resized_input_path, output_path, inpainted_output_path.
  all: destruct (artifact_path_spec image_path (list_ascii_of_string "_resized.jpg"))
         as (name & Hname & _ & _ & Hresized); [by intros c [= <-] | done |].
  all: destruct (artifact_path_spec image_path (list_ascii_of_string "_masked.jpg"))
         as (name' & Hname' & _ & _ & Hmasked); [by intros c [= <-] | done |].
  all: destruct (artifact_path_spec image_path (list_ascii_of_string "_inpainted.jpg"))
         as (name'' & Hname'' & _ & _ & Hinpainted); [by intros c [= <-] | done |].
  all: subst name' name''; rewrite <- Hname in Hmasked, Hinpainted.
  all: rewrite ?Hresized, ?Hmasked, ?Hinpainted; intros Heq;
       apply app_inv_head in Heq; inversion Heq as [Heq'];
       apply app_inv_head in Heq'; done.
Qed.

(** X7: the artifact paths keep only the stem of the image path.  For an
    image path made of a directory part, a stem that has no separator and is
    not made of dots only, a dot and an extension without dot or separator,
    the artifact is the output directory, the stem and the suffix; so two
    images with the same stem, in any directories and with any extensions,
    share their artifact paths. *)
Theorem artifact_path_keeps_the_stem (d stem ext suffix : list ascii) :
  (d = [] \/ last d = Some "/"%char) ->
  "/"%char ∉ stem -> forallb (fun x => Ascii.eqb x ".") stem = false ->
  "/"%char ∉ ext -> "."%char ∉ ext ->
  artifact_path (d ++ stem ++ "."%char :: ext) suffix
  = OUTPUT_DIR ++ "/"%char :: stem ++ suffix.
Proof.
  intros Hd Hstem Hdots Hext Hdot. unfold artifact_path.
  rewrite basename_dir; [|done|].
  2:{ intros Hin. apply elem_of_app in Hin as [Hin | Hin]; [done|].
      apply elem_of_cons in Hin as [Heq | Hin]; done. }
  rewrite splitext_stem by done.
  apply path_join_output. intros c Hc.
  destruct stem as [|x stem]; [done|]. cbn in Hc. inversion Hc; subst.
  intros ->. apply Hstem, list_elem_of_here.
Qed.

(** Two images with the stem [img], in different directories and with
    different extensions. *)
Lemma artifact_path_keeps_the_stem_witness :
  output_path (list_ascii_of_string "a/img.jpg")
  = output_path (list_ascii_of_string "b/c/img.png").
Proof.
  unfold output_path.
  rewrite (artifact_path_keeps_the_stem (list_ascii_of_string "a/")
             (list_ascii_of_string "img") (list_ascii_of_string "jpg")).
  - rewrite (artifact_path_keeps_the_stem (list_ascii_of_string "b/c/")
               (list_ascii_of_string "img") (list_ascii_of_string "png")).
    + reflexivity.
    + by right.
    + rewrite list_elem_of_In; cbn; intuition congruence.
    + reflexivity.
    + rewrite list_elem_of_In; cbn; intuition congruence.
    + rewrite list_elem_of_In; cbn; intuition congruence.
  - by right.
  - rewrite list_elem_of_In; cbn; intuition congruence.
  - reflexivity.
  - rewrite list_elem_of_In; cbn; intuition congruence.
  - rewrite list_elem_of_In; cbn; intuition congruence.
Defined.

(** ** The merged region and the mask of the inpainting *)

Lemma has_shape_merged_mask masks :
  has_shape (shape_h masks) (shape_w masks) (merged_mask masks).
Proof. apply has_shape_grid_map, has_shape_np_any_axis0. Qed.

Lemma mask_at_grid_map {A} (f : A -> bool) (g : grid A) r c :
  mask_at (grid_map f g) r c = true <-> exists p, at2 g r c = Some p /\ f p = true.
Proof.
  unfold mask_at. rewrite at2_grid_map. destruct (at2 g r c) as [p|]; cbn.
  - split; [intros Hf; by exists p | by intros (p' & [= <-] & Hf)].
  - split; [done | by intros (p & Hp & _)].
Qed.

(** X8: merging the masks of two lists of instances together gives the
    pixel-wise maximum (the union) of their two merged regions; so adding
    instances to a detection never takes a pixel out of the region. *)
Theorem merge_of_concatenation h w (l l' : list (grid bool)) :
  merged_mask (MaskStack h w (l ++ l'))
  = grid_zip_with Z.max (merged_mask (MaskStack h w l)) (merged_mask (MaskStack h w l'))
  /\ (forall r c, at2 (merged_mask (MaskStack h w l)) r c = Some 1 ->
        at2 (merged_mask (MaskStack h w (l ++ l'))) r c = Some 1).
Proof.
  assert (merged_mask (MaskStack h w (l ++ l'))
          = grid_zip_with Z.max (merged_mask (MaskStack h w l))
              (merged_mask (MaskStack h w l'))) as Hunion.
  { apply (grid_ext h w).
    - apply (has_shape_merged_mask (MaskStack h w (l ++ l'))).
    - apply has_shape_grid_zip_with.
      + apply (has_shape_merged_mask (MaskStack h w l)).
      + apply (has_shape_merged_mask (MaskStack h w l')).
    - intros r c Hr Hc. rewrite at2_grid_zip_with.
      rewrite (merged_mask_at (MaskStack h w (l ++ l')) r c Hr Hc).
      rewrite (merged_mask_at (MaskStack h w l) r c Hr Hc).
      rewrite (merged_mask_at (MaskStack h w l') r c Hr Hc).
      cbn [planes mbind option_bind]. rewrite existsb_app.
      by destruct (existsb _ l), (existsb _ l'). }
  split; [exact Hunion|]. intros r c Hone.
  assert ((r < h)%nat /\ (c < w)%nat) as [Hr Hc].
  { apply (has_shape_at2 _ _ _ r c (has_shape_merged_mask (MaskStack h w l))).
    by eexists. }
  rewrite (merged_mask_at (MaskStack h w (l ++ l')) r c Hr Hc).
  rewrite (merged_mask_at (MaskStack h w l) r c Hr Hc) in Hone.
  cbn [planes] in *. rewrite existsb_app.
  destruct (existsb _ l); [done|]. cbn in Hone. congruence.
Qed.

(** X9: the mask image handed to the inpainting has the height and width of
    the detector's masks and holds only 0 and 255; a pixel is 255 exactly
    when the mask probability of some instance, whatever its score, exceeds
    0.5 there (the product by 255 never wraps). *)
Theorem inpainting_mask_is_black_and_white soft r c :
  (r < soft_h soft)%nat -> (c < soft_w soft)%nat ->
  has_shape (soft_h soft) (soft_w soft) (inpainting_mask soft)
  /\ (at2 (inpainting_mask soft) r c = Some 255 \/
      at2 (inpainting_mask soft) r c = Some 0)
  /\ (at2 (inpainting_mask soft) r c = Some 255 <->
      exists i plane p,
        soft_planes soft !! i = Some plane /\ at2 plane r c = Some p /\
        (1 # 2 < p)%Q).
Proof.
  intros Hr Hc.
  assert (at2 (inpainting_mask soft) r c
          = Some (if existsb (fun m => mask_at m r c) (planes (binarize soft))
                  then 255 else 0)) as Hat.
  { unfold inpainting_mask, mask_image. rewrite at2_grid_map.
    rewrite (merged_mask_at (binarize soft) r c Hr Hc). cbn.
    by destruct (existsb _ _). }
  split; [|split].
  - unfold inpainting_mask, mask_image. apply has_shape_grid_map.
    apply (has_shape_merged_mask (binarize soft)).
  - rewrite Hat. destruct (existsb _ _); [by left | by right].
  - rewrite Hat.
    assert (existsb (fun m => mask_at m r c) (planes (binarize soft)) = true <->
            exists i plane p,
              soft_planes soft !! i = Some plane /\ at2 plane r c = Some p /\
              (1 # 2 < p)%Q) as Hany.
    { rewrite existsb_true. cbn [binarize planes]. split.
      - intros (i & m & Hm & Hmask). rewrite list_lookup_fmap in Hm.
        destruct (soft_planes soft !! i) as [plane|] eqn:Hplane; [|done].
        cbn in Hm. inversion Hm; subst m.
        apply mask_at_grid_map in Hmask as (p & Hp & Hlt).
        exists i, plane, p. split; [done|]. split; [done|]. by apply Qltb_lt.
      - intros (i & plane & p & Hplane & Hp & Hlt).
        exists i, (grid_map (fun p => Qltb (1 # 2) p) plane). split.
        + by rewrite list_lookup_fmap, Hplane.
        + apply mask_at_grid_map. exists p. split; [done|]. by apply Qltb_lt. }
    rewrite <- Hany. destruct (existsb _ _); split; congruence.
Qed.

(** A probability of exactly 0.5 is not in the mask; one of 0.6 is. *)
Lemma inpainting_mask_is_black_and_white_witness :
  (0 < 1)%nat /\ (1 < 3)%nat /\
  at2 (inpainting_mask (SoftStack 1 3 [[[1 # 2; 6 # 10; 0]]; [[0; 0; 1]]]%Q)) 0 1
  = Some 255.
Proof.
  assert (0 < 1)%nat as Hr by lia. assert (1 < 3)%nat as Hc by lia.
  split; [exact Hr|]. split; [exact Hc|].
  destruct (inpainting_mask_is_black_and_white
              (SoftStack 1 3 [[[1 # 2; 6 # 10; 0]]; [[0; 0; 1]]]%Q) 0 1 Hr Hc)
    as (_ & _ & Hiff).
  apply Hiff. exists 0%nat, [[1 # 2; 6 # 10; 0]]%Q, (6 # 10)%Q.
  split; [reflexivity|]. split; reflexivity.
Defined.

(** ** More on the compositor *)

Lemma for_each_ext body body' idxs st :
  (forall i st, i ∈ idxs -> body i st = body' i st) ->
  for_each body idxs st = for_each body' idxs st.
Proof.
  revert st. induction idxs as [|i idxs IH]; intros st Hext; [done|].
  cbn [for_each]. rewrite (Hext i st) by apply list_elem_of_here.
  destruct (body' i st) as [st'|e]; [|done]. rewrite !bind_Ok.
  apply IH. intros j st'' Hj. apply Hext. by apply list_elem_of_further.
Qed.

Lemma u8_to_u8 f : u8 (F64.to_u8 f).
Proof. unfold u8, F64.to_u8. apply Z.mod_pos_bound. lia. Qed.

Lemma anchor_in_shape h w (m : grid bool) x y :
  has_shape h w m -> (exists r c, mask_at m r c = true) -> anchor m = (x, y) ->
  0 <= x < Z.of_nat w /\ 0 <= y < Z.of_nat h.
Proof.
  intros Hm Hne Hxy. apply np_where_nonempty in Hne.
  apply anchor_eq in Hxy as [-> ->].
  assert (0 < Z.of_nat (length (np_where m))) as Hn.
  { destruct (np_where m); [done | cbn; lia]. }
  assert (forall rc, rc ∈ np_where m -> (rc.1 < h)%nat /\ (rc.2 < w)%nat) as Hin.
  { intros [r c] Hrc. apply elem_of_np_where in Hrc.
    apply (has_shape_at2 _ _ _ r c Hm). by eexists. }
  assert (0 < Z.of_nat h /\ 0 < Z.of_nat w) as [Hh Hw].
  { destruct (np_where m) as [|rc l] eqn:Hl; [done|].
    destruct (Hin rc) as [? ?]; [apply list_elem_of_here | lia]. }
  split.
  - assert (0 <= sum_cols (np_where m) / Z.of_nat (length (np_where m))
            <= Z.of_nat w - 1); [|lia].
    apply quotient_between; [done|]. apply sum_cols_bounds.
    intros rc Hrc. destruct (Hin rc Hrc). lia.
  - assert (0 <= sum_rows (np_where m) / Z.of_nat (length (np_where m))
            <= Z.of_nat h - 1); [|lia].
    apply quotient_between; [done|]. apply sum_rows_bounds.
    intros rc Hrc. destruct (Hin rc Hrc). lia.
Qed.

Section CompositorFurther.
Context `{Externals}.

Lemma for_each_shape (img0 : grid (pixel Z)) masks labels scores t idxs st stf :
  same_size img0 masks ->
  for_each (iteration masks labels scores t) idxs st = Ok stf ->
  image_shape (shape_h masks) (shape_w masks) (img st) ->
  image_shape (shape_h masks) (shape_w masks) (img stf).
Proof.
  intros Hsize. revert st. induction idxs as [|i idxs IH]; intros st Hf Hshape.
  - cbn in Hf. inversion Hf; by subst.
  - apply for_each_cons_Ok in Hf as (st' & Hit & Hf). apply iteration_Ok in Hit.
    apply (IH st' Hf). by eapply outcome_shape.
Qed.

(** X10: the returned image is an 8-bit image of the height and width of the
    source image. *)
Theorem returned_image_keeps_the_shape img0 boxes masks labels scores t out :
  same_size img0 masks -> u8_image img0 ->
  draw_instance_predictions img0 boxes masks labels scores t = Ok out ->
  has_shape (shape_h masks) (shape_w masks) out /\ u8_image out.
Proof.
  intros Hsize Hu8 Hout.
  apply draw_instance_predictions_Ok in Hout as (st & Hrun & -> & _).
  unfold run in Hrun.
  pose proof (for_each_shape img0 _ _ _ _ _ _ _ Hsize Hrun (proj1 Hsize)) as Hshape.
  apply for_each_dtype in Hrun as [Heq | [a Ha]].
  - cbn [img] in Heq. rewrite Heq in Hshape |- *. by split.
  - rewrite Ha in Hshape |- *. cbn [astype_u8 image_shape] in *. split.
    + by apply has_shape_grid_map.
    + unfold u8_image, grid_map. rewrite Forall_fmap. apply Forall_forall.
      intros row _. cbn. rewrite Forall_fmap. apply Forall_forall.
      intros [[v1 v2] v3] _. cbn. repeat split; apply u8_to_u8.
Qed.

Lemma label_text_Ok_iff l :
  (exists label, label_text l = Ok label) <-> - Z.of_nat (length CLASS_NAMES) <= l.
Proof.
  split.
  - intros [label Hlabel].
    destruct (Z_lt_le_dec l (- Z.of_nat (length CLASS_NAMES))) as [Hlt|Hge]; [|done].
    rewrite (label_text_too_negative l Hlt) in Hlabel. done.
  - intros Hge. destruct (Z_lt_le_dec l 0) as [Hneg|Hpos].
    + destruct (label_text_negative l Hneg Hge) as (name & _ & Hname). by exists name.
    + destruct (Z_lt_le_dec l (Z.of_nat (length CLASS_NAMES))) as [Hlt|Hbig].
      * destruct (label_text_catalog l) as (name & _ & Hname); [lia|]. by exists name.
      * exists (pretty l). by apply label_text_fallback.
Qed.

Lemma iteration_returns_iff masks labels scores t i st :
  (i < length (planes masks))%nat ->
  (exists st', iteration masks labels scores t i st = Ok st') <->
  iteration_returns masks labels scores t i.
Proof.
  intros Hi. destruct (lookup_lt_is_Some_2 _ _ Hi) as [m Hm].
  unfold iteration_returns. split.
  - intros [st' Hit]. apply iteration_Ok in Hit.
    destruct Hit as [s Hs Hlt | s m' Hs Hge Hm' Hnil | s m' l label Hs Hge Hm' Hne Hl Hlabel];
      exists s; (split; [done|]).
    + intros Hge. exfalso. by apply (Qlt_not_le s t).
    + intros _ m'' Hm'' Hsome. rewrite Hm' in Hm''. inversion Hm''; subst m''.
      apply np_where_nonempty in Hsome. done.
    + intros _ m'' Hm'' _. exists l. split; [done|].
      apply label_text_Ok_iff. by exists label.
  - intros (s & Hs & Hacc). destruct (Qlt_le_dec s t) as [Hlt|Hge].
    + exists st. by eapply iteration_rejected.
    + destruct (np_where m) as [|rc coords] eqn:Hw.
      * eexists. by eapply iteration_accepted_empty.
      * assert (exists r c, mask_at m r c = true) as Hne.
        { apply np_where_nonempty. by rewrite Hw. }
        destruct (Hacc Hge m Hm Hne) as (l & Hl & Hlo).
        apply label_text_Ok_iff in Hlo as [label Hlabel].
        eexists. by eapply iteration_renders.
Qed.

Lemma for_each_returns_iff masks labels scores t idxs :
  (forall i, i ∈ idxs -> (i < length (planes masks))%nat) ->
  forall st,
  (exists stf, for_each (iteration masks labels scores t) idxs st = Ok stf) <->
  (forall i, i ∈ idxs -> iteration_returns masks labels scores t i).
Proof.
  induction idxs as [|i idxs IH]; intros Hin st.
  - split; [intros _ i Hi; by apply elem_of_nil in Hi | intros _; by exists st].
  - assert (forall j, j ∈ idxs -> (j < length (planes masks))%nat) as Hin'.
    { intros j Hj. by apply Hin, list_elem_of_further. }
    split.
    + intros [stf Hf]. apply for_each_cons_Ok in Hf as (st' & Hit & Hf).
      intros j Hj. apply elem_of_cons in Hj as [-> | Hj].
      * apply (iteration_returns_iff _ _ _ _ _ st); [apply Hin, list_elem_of_here|].
        by exists st'.
      * apply (proj1 (IH Hin' st')); [by exists stf | done].
    + intros Hall.
      destruct (proj2 (iteration_returns_iff masks labels scores t i st
                         (Hin i (list_elem_of_here _ _)))) as [st' Hit].
      { apply Hall, list_elem_of_here. }
      destruct (proj2 (IH Hin' st')) as [stf Hf].
      { intros j Hj. by apply Hall, list_elem_of_further. }
      exists stf. cbn [for_each]. by rewrite Hit, bind_Ok.
Qed.

Lemma draw_returns_iff img0 boxes masks labels scores t :
  (exists out, draw_instance_predictions img0 boxes masks labels scores t = Ok out) <->
  (forall i, (i < length (planes masks))%nat ->
     iteration_returns masks labels scores t i).
Proof.
  pose proof (for_each_returns_iff masks labels scores t
                (seq 0 (length (planes masks)))) as Hloop.
  unfold draw_instance_predictions, run. split.
  - intros [out Hout] i Hi.
    apply (proj1 (Hloop ltac:(intros j Hj; apply elem_of_seq in Hj; lia)
                    (Canvas (U8 img0) 0 []))).
    + destruct (for_each _ _ _) as [stf|e]; [by exists stf | done].
    + apply elem_of_seq. lia.
  - intros Hall.
    destruct (proj2 (Hloop ltac:(intros j Hj; apply elem_of_seq in Hj; lia)
                       (Canvas (U8 img0) 0 []))) as [stf Hf].
    { intros i Hi. apply Hall. apply elem_of_seq in Hi. lia. }
    rewrite Hf. by eexists.
Qed.

(** X11: when the call returns.  For masks of the height and width of the
    image, [draw_instance_predictions] returns an image exactly when, for
    every index below the number of masks, the score is there and, if the
    instance is accepted and its mask has a true pixel, its label id is
    there and is not below minus the catalog length.  Labels of rejected
    instances and of instances with an empty mask are never looked at. *)
Theorem draw_instance_predictions_returns_iff img0 boxes masks labels scores t :
  same_size img0 masks ->
  (exists out, draw_instance_predictions img0 boxes masks labels scores t = Ok out) <->
  (forall i, (i < length (planes masks))%nat ->
     iteration_returns masks labels scores t i).
Proof. intros _. apply draw_returns_iff. Qed.

Lemma iteration_take masks labels scores t i st :
  (i < length (planes masks))%nat ->
  iteration masks (take (length (planes masks)) labels)
            (take (length (planes masks)) scores) t i st
  = iteration masks labels scores t i st.
Proof.
  intros Hi. unfold iteration, np_index. by rewrite !lookup_take_lt.
Qed.

(** X12: only the first [len(masks)] scores and labels are read: longer
    arrays give the same image and the same labels as their prefixes of that
    length. *)
Theorem only_the_first_entries_are_read img0 boxes masks labels scores t :
  draw_instance_predictions img0 boxes masks labels scores t
  = draw_instance_predictions img0 boxes masks
      (take (length (planes masks)) labels) (take (length (planes masks)) scores) t
  /\ rendered_labels img0 boxes masks labels scores t
     = rendered_labels img0 boxes masks
         (take (length (planes masks)) labels) (take (length (planes masks)) scores) t.
Proof.
  assert (run img0 boxes masks labels scores t
          = run img0 boxes masks (take (length (planes masks)) labels)
              (take (length (planes masks)) scores) t) as Hrun.
  { unfold run. apply for_each_ext. intros i st Hi. apply elem_of_seq in Hi.
    symmetry. apply iteration_take. lia. }
  unfold draw_instance_predictions, rendered_labels. by rewrite Hrun.
Qed.

Lemma outcome_label_call masks labels scores t i st st' :
  outcome masks labels scores t i st st' ->
  texts st' = texts st ++ option_list (label_call masks labels scores t i).
Proof.
  unfold label_call.
  intros [s Hs Hlt | s m Hs Hge Hm Hnil | s m l label Hs Hge Hm Hne Hl Hlabel];
    cbn [texts].
  - rewrite (accepts_rejected _ _ _ _ Hs Hlt). by rewrite app_nil_r.
  - rewrite (accepts_accepted _ _ _ _ Hs Hge), Hm, Hnil. by rewrite app_nil_r.
  - rewrite (accepts_accepted _ _ _ _ Hs Hge), Hm, Hl, Hlabel.
    by destruct (np_where m).
Qed.

Lemma for_each_label_calls masks labels scores t idxs st stf :
  for_each (iteration masks labels scores t) idxs st = Ok stf ->
  texts stf = texts st ++ omap (label_call masks labels scores t) idxs.
Proof.
  revert st. induction idxs as [|i idxs IH]; intros st Hf.
  - cbn in Hf. inversion Hf; subst. by rewrite app_nil_r.
  - apply for_each_cons_Ok in Hf as (st' & Hit & Hf).
    apply iteration_Ok, outcome_label_call in Hit.
    rewrite (IH _ Hf), Hit, <- app_assoc. f_equal. cbn.
    by destruct (label_call masks labels scores t i).
Qed.

(** X13: the labels are drawn in index order, one for every accepted
    instance whose mask has a true pixel and none for any other: the calls of
    [cv2.putText] of a call that returns are the texts and anchors of these
    instances, in increasing index order. *)
Theorem labels_are_drawn_in_index_order img0 boxes masks labels scores t out :
  draw_instance_predictions img0 boxes masks labels scores t = Ok out ->
  rendered_labels img0 boxes masks labels scores t
  = omap (label_call masks labels scores t) (seq 0 (length (planes masks)))
  /\ (forall i, (i < length (planes masks))%nat ->
        is_Some (label_call masks labels scores t i) <->
        accepts scores t i = true /\
        exists m, planes masks !! i = Some m /\ exists r c, mask_at m r c = true).
Proof.
  intros Hout. pose proof Hout as Hret.
  apply draw_instance_predictions_Ok in Hout as (st & Hrun & _ & Htexts).
  split.
  - rewrite Htexts. unfold run in Hrun.
    by rewrite (for_each_label_calls _ _ _ _ _ _ _ Hrun).
  - intros i Hi.
    destruct (proj1 (draw_returns_iff img0 boxes masks labels scores t)
                (ex_intro _ out Hret) i Hi) as (s & Hs & Hacc).
    unfold label_call. destruct (accepts scores t i) eqn:Ha.
    + apply accepts_spec in Ha as (s' & Hs' & Hge). rewrite Hs in Hs'.
      inversion Hs'; subst s'.
      destruct (lookup_lt_is_Some_2 _ _ Hi) as [m Hm]. rewrite Hm.
      destruct (np_where m) as [|rc coords] eqn:Hw.
      * split; [by intros [? ?]|]. intros (_ & m' & [= <-] & Hne).
        apply np_where_nonempty in Hne. done.
      * assert (exists r c, mask_at m r c = true) as Hne.
        { apply np_where_nonempty. by rewrite Hw. }
        destruct (Hacc Hge m Hm Hne) as (l & Hl & Hlo). rewrite Hl.
        apply label_text_Ok_iff in Hlo as [label ->].
        split; [|by eexists]. intros _. split; [done|]. by exists m.
    + split; [by intros [? ?] | by intros [? _]].
Qed.

(** X14: the origin of every label that is drawn is a pixel of the image. *)
Theorem label_origins_are_inside_the_image img0 boxes masks labels scores t out label x y :
  same_size img0 masks ->
  draw_instance_predictions img0 boxes masks labels scores t = Ok out ->
  (label, (x, y)) ∈ rendered_labels img0 boxes masks labels scores t ->
  0 <= x < Z.of_nat (shape_w masks) /\ 0 <= y < Z.of_nat (shape_h masks).
Proof.
  intros [_ Hms] Hout Hin.
  apply draw_instance_predictions_Ok in Hout as (st & Hrun & _ & Htexts).
  rewrite Htexts in Hin. unfold run in Hrun.
  rewrite (for_each_label_calls _ _ _ _ _ _ _ Hrun) in Hin. cbn [texts app] in Hin.
  apply list_elem_of_omap in Hin as (i & _ & Hcall). unfold label_call in Hcall.
  destruct (accepts scores t i); [|done].
  destruct (planes masks !! i) as [m|] eqn:Hm; [|done].
  destruct (np_where m) as [|rc coords] eqn:Hw; [done|].
  destruct (labels !! i); [|done]. destruct (label_text z); [|done].
  inversion Hcall as [[Hlabel Hanchor]].
  rewrite Forall_lookup in Hms. apply (anchor_in_shape _ _ m); [by eapply Hms | | done].
  apply np_where_nonempty. by rewrite Hw.
Qed.

Lemma iteration_accept_bits masks labels scores scores' t t' i st :
  length scores = length scores' ->
  accepts scores t i = accepts scores' t' i ->
  iteration masks labels scores t i st = iteration masks labels scores' t' i st.
Proof.
  intros Hlen Hacc. unfold iteration, np_index. unfold accepts in Hacc.
  destruct (scores !! i) as [s|] eqn:Hs, (scores' !! i) as [s'|] eqn:Hs'.
  - rewrite !bind_Ok. apply (f_equal negb) in Hacc. rewrite !negb_involutive in Hacc.
    by rewrite Hacc.
  - apply lookup_lt_Some in Hs. apply lookup_ge_None in Hs'. lia.
  - apply lookup_lt_Some in Hs'. apply lookup_ge_None in Hs. lia.
  - done.
Qed.

(** X15: the scores and the threshold matter only through the outcome of the
    test of line 49: two calls whose score arrays have one length and accept
    the same instances return the same image and draw the same labels. *)
Theorem scores_matter_through_acceptance img0 boxes masks labels scores scores' t t' :
  length scores = length scores' ->
  (forall i, accepts scores t i = accepts scores' t' i) ->
  draw_instance_predictions img0 boxes masks labels scores t
  = draw_instance_predictions img0 boxes masks labels scores' t'
  /\ rendered_labels img0 boxes masks labels scores t
     = rendered_labels img0 boxes masks labels scores' t'.
Proof.
  intros Hlen Hacc.
  assert (run img0 boxes masks labels scores t
          = run img0 boxes masks labels scores' t') as Hrun.
  { unfold run. apply for_each_ext. intros i st _.
    by apply iteration_accept_bits. }
  unfold draw_instance_predictions, rendered_labels. by rewrite Hrun.
Qed.

(** X16: the visualization differs from the source only inside the merged
    region or under a label: a pixel where the merged region is 0 and that
    no label paints is returned as it was. *)
Theorem visualization_changes_inside_the_region img0 boxes masks labels scores t out r c :
  same_size img0 masks -> u8_image img0 ->
  draw_instance_predictions img0 boxes masks labels scores t = Ok out ->
  at2 (merged_mask masks) r c = Some 0 ->
  outside_labels img0 (rendered_labels img0 boxes masks labels scores t) r c ->
  at2 out r c = at2 img0 r c.
Proof.
  intros Hsize Hu8 Hout Hzero Hlabels.
  assert ((r < shape_h masks)%nat /\ (c < shape_w masks)%nat) as [Hr Hc].
  { apply (has_shape_at2 _ _ _ r c (has_shape_merged_mask masks)). by eexists. }
  rewrite (merged_mask_at masks r c Hr Hc) in Hzero.
  assert (existsb (fun m => mask_at m r c) (planes masks) = false) as Hnone.
  { destruct (existsb _ _); [done | done]. }
  apply draw_instance_predictions_Ok in Hout as (st & Hrun & -> & Htexts).
  rewrite Htexts in Hlabels. unfold run in Hrun.
  eapply for_each_frame; eauto; [cbn; by destruct Hsize|].
  intros i m Hm _. destruct (mask_at m r c) eqn:Hmask; [|done].
  assert (existsb (fun m => mask_at m r c) (planes masks) = true) as Htrue.
  { apply existsb_true. by exists i, m. }
  congruence.
Qed.

(** X17: an accepted instance whose mask has no true pixel changes no pixel
    value and draws no label; it still takes one colour from the random
    stream, so the colours of the instances after it are the next ones. *)
Theorem empty_mask_changes_no_pixel masks labels scores t i s m st :
  scores !! i = Some s -> (t <= s)%Q -> planes masks !! i = Some m ->
  (forall r c, mask_at m r c = false) ->
  has_shape (shape_h masks) (shape_w masks) m ->
  image_shape (shape_h masks) (shape_w masks) (img st) ->
  exists st', iteration masks labels scores t i st = Ok st' /\
    as_f64 (img st') = as_f64 (img st) /\
    draws st' = S (draws st) /\ texts st' = texts st.
Proof.
  intros Hs Hge Hm Hempty Hshape Hst. apply np_where_nil in Hempty as Hnil.
  eexists. split; [by eapply iteration_accepted_empty|]. cbn [img draws texts].
  split; [|done].
  apply (grid_ext (shape_h masks) (shape_w masks)).
  - apply as_f64_shape. by apply blend_shape.
  - by apply as_f64_shape.
  - intros r c Hr Hc. rewrite blend_at.
    destruct (proj2 (has_shape_at2 _ _ m r c Hshape) (conj Hr Hc)) as [b Hb].
    specialize (Hempty r c). unfold mask_at in Hempty. rewrite Hb in Hempty |- *.
    cbn in Hempty. subst b. cbn. by destruct (at2 (as_f64 (img st)) r c).
Qed.

End CompositorFurther.

(** ** Instances of the further statements on the sample data *)

Lemma scenario_same_size : same_size grey_4x4 two_masks.
Proof.
  split; [split; [done | by repeat constructor]|].
  repeat constructor.
Qed.

Lemma scenario_u8 : u8_image grey_4x4.
Proof. repeat constructor; done. Qed.

Lemma scenario_returns :
  @draw_instance_predictions stroke_world grey_4x4 [] two_masks [1; 2]
    [9 # 10; 3 # 10]%Q (1 # 2)%Q = Ok scenario_out.
Proof. vm_compute. reflexivity. Qed.

Lemma returned_image_keeps_the_shape_witness :
  has_shape 4 4 scenario_out /\ u8_image scenario_out.
Proof.
  exact (@returned_image_keeps_the_shape stroke_world grey_4x4 [] two_masks [1; 2]
           [9 # 10; 3 # 10]%Q (1 # 2)%Q scenario_out
           scenario_same_size scenario_u8 scenario_returns).
Defined.

(** In the scenario the call returns; with an empty [labels] it does not,
    since the first instance is accepted and its mask has a true pixel. *)
Lemma draw_instance_predictions_returns_iff_witness :
  (exists out,
     @draw_instance_predictions stroke_world grey_4x4 [] two_masks [1; 2]
       [9 # 10; 3 # 10]%Q (1 # 2)%Q = Ok out)
  /\ ~ (exists out,
          @draw_instance_predictions stroke_world grey_4x4 [] two_masks []
            [9 # 10; 3 # 10]%Q (1 # 2)%Q = Ok out).
Proof.
  split.
  - apply (proj2 (@draw_instance_predictions_returns_iff stroke_world grey_4x4 []
                    two_masks [1; 2] [9 # 10; 3 # 10]%Q (1 # 2)%Q scenario_same_size)).
    intros [|[|i]] Hi; [| |cbn in Hi; lia].
    + exists (9 # 10)%Q. split; [reflexivity|]. intros _ m _ _.
      exists 1. split; [reflexivity|]. cbn. lia.
    + exists (3 # 10)%Q. split; [reflexivity|]. intros Hge. by vm_compute in Hge.
  - intros Hret.
    apply (proj1 (@draw_instance_predictions_returns_iff stroke_world grey_4x4 []
                    two_masks [] [9 # 10; 3 # 10]%Q (1 # 2)%Q scenario_same_size))
      with (i := 0%nat) in Hret; [|cbn; lia].
    destruct Hret as (s & Hs & Hlabel). inversion Hs; subst s.
    destruct (Hlabel ltac:(by vm_compute) left_mask eq_refl) as (l & Hl & _).
    + by exists 0%nat, 0%nat.
    + done.
Defined.

Lemma labels_are_drawn_in_index_order_witness :
  @rendered_labels stroke_world grey_4x4 [] two_masks [1; 2] [9 # 10; 3 # 10]%Q (1 # 2)%Q
  = omap (@label_call stroke_world two_masks [1; 2] [9 # 10; 3 # 10]%Q (1 # 2)%Q)
      (seq 0 2).
Proof.
  exact (proj1 (@labels_are_drawn_in_index_order stroke_world grey_4x4 [] two_masks
                  [1; 2] [9 # 10; 3 # 10]%Q (1 # 2)%Q scenario_out scenario_returns)).
Defined.

Lemma label_origins_are_inside_the_image_witness :
  0 <= 0 < 4 /\ 0 <= 1 < 4.
Proof.
  apply (@label_origins_are_inside_the_image stroke_world grey_4x4 [] two_masks [1; 2]
           [9 # 10; 3 # 10]%Q (1 # 2)%Q scenario_out "rice"%string 0 1
           scenario_same_size scenario_returns).
  vm_compute. apply list_elem_of_here.
Defined.

(** Other scores with the same outcome of the test give the same image. *)
Lemma scores_matter_through_acceptance_witness :
  @draw_instance_predictions stroke_world grey_4x4 [] two_masks [1; 2]
    [9 # 10; 3 # 10]%Q (1 # 2)%Q
  = @draw_instance_predictions stroke_world grey_4x4 [] two_masks [1; 2]
      [1; 0]%Q (1 # 10)%Q.
Proof.
  apply (@scores_matter_through_acceptance stroke_world grey_4x4 [] two_masks [1; 2]
           [9 # 10; 3 # 10]%Q [1; 0]%Q (1 # 2)%Q (1 # 10)%Q).
  - reflexivity.
  - intros [|[|i]]; reflexivity.
Defined.

(** The first pixel of the white image is outside the merged region and
    outside the label. *)
Lemma visualization_changes_inside_the_region_witness :
  at2 (merged_mask dot_masks) 0 0 = Some 0 /\
  at2 dot_drawn 0 0 = at2 white_2x6 0 0.
Proof.
  assert (at2 (merged_mask dot_masks) 0 0 = Some 0) as Hzero by reflexivity.
  split; [exact Hzero|].
  apply (@visualization_changes_inside_the_region opencv_world white_2x6 [] dot_masks
           [1] [9 # 10]%Q (1 # 2)%Q dot_drawn 0 0 dot_same_size dot_u8
           dot_drawn_returns Hzero).
  apply outside_the_stem; [by vm_compute | lia].
Defined.

(** An accepted instance with an all-false mask on the 1 x 3 image. *)
Lemma empty_mask_changes_no_pixel_witness :
  exists st',
    @iteration stroke_world (MaskStack 1 3 [[[false; false; false]]]) [1] [9 # 10]%Q
      (1 # 2)%Q 0 (Canvas (U8 grey_1x3) 0 []) = Ok st' /\
    as_f64 (img st') = as_f64 (U8 grey_1x3) /\
    draws st' = 1%nat /\ texts st' = [].
Proof.
  apply (@empty_mask_changes_no_pixel stroke_world
           (MaskStack 1 3 [[[false; false; false]]]) [1] [9 # 10]%Q (1 # 2)%Q 0%nat
           (9 # 10)%Q [[false; false; false]] (Canvas (U8 grey_1x3) 0 [])).
  - reflexivity.
  - done.
  - reflexivity.
  - intros [|r] [|[|[|c]]]; reflexivity.
  - split; [done | by repeat constructor].
  - split; [done | by repeat constructor].
Defined.

(** The sample file loads; with a blank line at its end it does not. *)
Example sample_file_loads :
  load_class_names sample_lines = Loaded sample_names /\
  load_class_names (sample_lines ++ [[newline]]) = ValueError 0 /\
  load_class_names (list_ascii_of_string "5" :: sample_lines) = ValueError 1.
Proof. repeat split. Qed.

Example sample_paths :
  string_of_list_ascii (output_path (list_ascii_of_string "images/00004520.jpg"))
  = "output/00004520_masked.jpg"%string /\
  string_of_list_ascii (output_path (list_ascii_of_string "../../etc/passwd"))
  = "output/passwd_masked.jpg"%string /\
  string_of_list_ascii (output_path (list_ascii_of_string "a/b/.hidden"))
  = "output/.hidden_masked.jpg"%string /\
  string_of_list_ascii (output_path (list_ascii_of_string "a/b/"))
  = "output/_masked.jpg"%string.
Proof. repeat split. Qed.
